(** * Mumble plugin utilities: a shallow embedding of
      [plugins/mumble_plugin_utils.h] and the properties of its helpers.

    The header offers stateless helpers to the positional-audio plugins:
    text transcoding ([utf8ToUtf16], [utf16ToUtf8]), the in-place string
    sanitizer [escape], [readFile], [sinCos], [isBigEndian] and
    [networkToHost].  Each one is modelled below the way it is written;
    whatever the header takes from the platform (the signedness of [char],
    the byte order, the C++ standard library, the file system, libm) is made
    explicit as a parameter or as a model of that component. *)

From Stdlib Require Import ZArith List Bool Lia String.
From Stdlib Require Import Strings.Byte.
From stdpp Require Import base option list strings gmap.

Local Open Scope Z_scope.

(** ** Characters

    A [char] is one octet.  [uchar] is the cast [(unsigned char) c]; [schar]
    is the value of the same octet when [char] is a signed type; [to_char]
    is the narrowing conversion of an integer to [char]. *)

Definition uchar (b : byte) : Z := Z.of_N (Byte.to_N b).

Definition schar (b : byte) : Z :=
  if uchar b <? 128 then uchar b else uchar b - 256.

Definition to_char (z : Z) : byte :=
  default "000"%byte (Byte.of_N (Z.to_N (z mod 256))).

Definition NUL : byte := to_char 0.
Definition SPACE : byte := to_char 32.

(** ** The abstract machine of [escape]

    [escape] works on a caller-owned object through a raw pointer.  The
    object is a list of octets; every access is checked against its extent
    (an access outside it is undefined behaviour) and is appended to a
    trace, so that the safety of the scan can be stated.  Offsets are
    [size_t] values, taken modulo [2^64]. *)

Module Machine.

Inductive access : Type :=
| Rd (i : Z)
| Wr (i : Z).

Definition index (a : access) : Z :=
  match a with Rd i | Wr i => i end.

Definition is_write (a : access) : bool :=
  match a with Wr _ => true | Rd _ => false end.

Record state : Type := mkState { mem : list byte; trace : list access }.

Inductive outcome (A : Type) : Type :=
| Done (a : A)
| Undefined
| OutOfFuel.
Arguments Done {A} a.
Arguments Undefined {A}.
Arguments OutOfFuel {A}.

Definition M (A : Type) : Type := state -> outcome (A * state).

Definition ret {A} (a : A) : M A := fun s => Done (a, s).

Definition bind {A B} (m : M A) (k : A -> M B) : M B :=
  fun s => match m s with
           | Done (a, s') => k a s'
           | Undefined => Undefined
           | OutOfFuel => OutOfFuel
           end.

Definition out_of_fuel {A} : M A := fun _ => OutOfFuel.

Definition in_bounds (s : state) (i : Z) : bool :=
  (0 <=? i) && (i <? Z.of_nat (length (mem s))).

(** Reading the octet at offset [i] of [str]. *)
Definition load (i : Z) : M byte :=
  fun s =>
    if in_bounds s i then
      match mem s !! Z.to_nat i with
      | Some b => Done (b, mkState (mem s) (trace s ++ [Rd i]))
      | None => Undefined
      end
    else Undefined.

(** Writing [b] at offset [i] of [str]. *)
Definition store (i : Z) (b : byte) : M unit :=
  fun s =>
    if in_bounds s i then
      Done (tt, mkState (<[Z.to_nat i := b]> (mem s)) (trace s ++ [Wr i]))
    else Undefined.

Definition size_t (z : Z) : Z := z mod 2 ^ 64.

End Machine.

Import Machine.

#[global] Instance machine_ret : MRet M := @ret.
#[global] Instance machine_bind : MBind M := fun A B k m => bind m k.

(** ** [escape] *)

Section Escape.

(** Whether plain [char] is a signed type is left to the platform. *)
Variable char_is_signed : bool.

Definition char_val (b : byte) : Z :=
  if char_is_signed then schar b else uchar b.

(** First [if] of the loop body: a double quote (34) under the cursor is
    overwritten with a space (32). *)
Definition blank_quote (c : Z) : M unit :=
  v ← load c;
  if char_val v =? 34 then store c (to_char 32) else mret tt.

(** Second [if] of the loop body: a character below 32 or above 126 is
    overwritten with a space.  Every evaluation of the cursor's target is
    a separate read, and [||] is short-circuit. *)
Definition blank_unprintable (c : Z) : M unit :=
  v ← load c;
  if char_val v <? 32 then store c (to_char 32)
  else
    v' ← load c;
    if char_val v' >? 126 then store c (to_char 32) else mret tt.

(** The [while] loop of [escape]; [c] is the offset of the cursor from
    [str]. *)
Fixpoint escape_loop (fuel : nat) (c : Z) : M unit :=
  match fuel with
  | O => out_of_fuel
  | S fuel' =>
      v ← load c;
      if char_val v =? 0 then mret tt
      else
        blank_quote c;;
        blank_unprintable c;;
        escape_loop fuel' (c + 1)
  end.

Definition escape (fuel : nat) (size : Z) : M unit :=
  store (size_t (size - 1)) (to_char 0);;
  escape_loop fuel 0.

(** Running [escape] on a buffer: the final contents and the accesses. *)
Definition run_escape (fuel : nat) (str : list byte) (size : Z)
  : outcome (list byte * list access) :=
  match escape fuel size (mkState str []) with
  | Done (_, s) => Done (mem s, trace s)
  | Undefined => Undefined
  | OutOfFuel => OutOfFuel
  end.

End Escape.

(** The first [NUL] of a buffer, as C's [strlen] finds it. *)
Fixpoint strlen (l : list byte) : nat :=
  match l with
  | [] => O
  | b :: l' => if uchar b =? 0 then O else S (strlen l')
  end.

(** What [escape] does to one octet of the string. *)
Definition must_blank (b : byte) : bool :=
  (uchar b =? 34) || (uchar b <? 32) || (126 <? uchar b).

Definition sanitize (b : byte) : byte :=
  if must_blank b then SPACE else b.

(** The buffer [escape] leaves behind, as a function of the buffer it is
    given: the last octet of the declared capacity is cleared, then the
    octets before the first [NUL] are sanitized. *)
Definition escaped (str : list byte) (size : Z) : list byte :=
  let m := <[Z.to_nat (size - 1) := NUL]> str in
  let k := strlen m in
  (sanitize <$> take k m) ++ drop k m.

(** The caller contract of [escape]: [size] is a [size_t], at least 1, and
    the object behind [str] has at least [size] octets. *)
Definition valid_capacity (str : list byte) (size : Z) : Prop :=
  1 <= size <= Z.of_nat (length str) /\ size < 2 ^ 64.


(** ** Text transcoding

    The three converters of the header hand the work to the C++ standard
    library: a [std::wstring_convert] over the facet
    [std::codecvt_utf8_utf16<Elem>], whose [from_bytes] and [to_bytes]
    throw [std::range_error] when the facet reports [error].  The header
    only adds the [try]/[catch] that turns the exception into an empty
    string.  The library is not part of the header; it is modelled here
    after the GNU implementation (libstdc++ 12: [bits/locale_conv.h] and
    [src/c++11/codecvt.cc]), with the default parameters the header uses
    ([Maxcode = 0x10ffff], [Mode = 0], no error string).  Code units are
    integers; a narrow string is a list of octets. *)

Module Codecvt.

(** [std::codecvt_base::result] *)
Inductive result : Type := ok | partial | error | noconv.

Definition result_eqb (a b : result) : bool :=
  match a, b with
  | ok, ok | partial, partial | error, error | noconv, noconv => true
  | _, _ => false
  end.

(** Conversion to [char32_t] and [char16_t]. *)
Definition char32_t (z : Z) : Z := z mod 2 ^ 32.
Definition char16_t (z : Z) : Z := z mod 2 ^ 16.

Definition max_code_point : Z := 0x10FFFF.
Definition max_single_utf16_unit : Z := 0xFFFF.
Definition incomplete_mb_character : Z := char32_t (-2).
Definition invalid_mb_sequence : Z := char32_t (-1).

Definition is_continuation (c : Z) : bool := Z.land c 0xC0 =? 0x80.

(** Reads one code point from the front of [from].  Returns the code
    point, or one of the two sentinels, and the range that is left; the
    range only moves when the code point is at most [maxcode]. *)
Definition read_utf8_code_point (from : list byte) (maxcode : Z)
  : Z * list byte :=
  match from with
  | [] => (incomplete_mb_character, from)
  | b1 :: t1 =>
    let c1 := uchar b1 in
    if c1 <? 0x80 then (c1, t1)
    else if c1 <? 0xC2 then (invalid_mb_sequence, from)
    else if c1 <? 0xE0 then
      match t1 with
      | b2 :: t2 =>
        let c2 := uchar b2 in
        if negb (is_continuation c2) then (invalid_mb_sequence, from)
        else
          let c := char32_t (Z.shiftl c1 6 + c2 - 0x3080) in
          (c, if c <=? maxcode then t2 else from)
      | _ => (incomplete_mb_character, from)
      end
    else if c1 <? 0xF0 then
      match t1 with
      | b2 :: b3 :: t3 =>
        let c2 := uchar b2 in
        if negb (is_continuation c2) then (invalid_mb_sequence, from)
        else if (c1 =? 0xE0) && (c2 <? 0xA0) then (invalid_mb_sequence, from)
        else
          let c3 := uchar b3 in
          if negb (is_continuation c3) then (invalid_mb_sequence, from)
          else
            let c := char32_t (Z.shiftl c1 12 + Z.shiftl c2 6 + c3 - 0xE2080) in
            (c, if c <=? maxcode then t3 else from)
      | _ => (incomplete_mb_character, from)
      end
    else if c1 <? 0xF5 then
      match t1 with
      | b2 :: b3 :: b4 :: t4 =>
        let c2 := uchar b2 in
        if negb (is_continuation c2) then (invalid_mb_sequence, from)
        else if (c1 =? 0xF0) && (c2 <? 0x90) then (invalid_mb_sequence, from)
        else if (c1 =? 0xF4) && (0x90 <=? c2) then (invalid_mb_sequence, from)
        else
          let c3 := uchar b3 in
          if negb (is_continuation c3) then (invalid_mb_sequence, from)
          else
            let c4 := uchar b4 in
            if negb (is_continuation c4) then (invalid_mb_sequence, from)
            else
              let c := char32_t (Z.shiftl c1 18 + Z.shiftl c2 12
                                 + Z.shiftl c3 6 + c4 - 0x3C82080) in
              (c, if c <=? maxcode then t4 else from)
      | _ => (incomplete_mb_character, from)
      end
    else (invalid_mb_sequence, from)
  end.

(** Writes one code point as UTF-8; fails above U+10FFFF. *)
Definition write_utf8_code_point (code_point : Z) : option (list byte) :=
  if code_point <? 0x80 then
    Some [to_char code_point]
  else if code_point <=? 0x7FF then
    Some [to_char (Z.shiftr code_point 6 + 0xC0);
          to_char (Z.land code_point 0x3F + 0x80)]
  else if code_point <=? 0xFFFF then
    Some [to_char (Z.shiftr code_point 12 + 0xE0);
          to_char (Z.land (Z.shiftr code_point 6) 0x3F + 0x80);
          to_char (Z.land code_point 0x3F + 0x80)]
  else if code_point <=? 0x10FFFF then
    Some [to_char (Z.shiftr code_point 18 + 0xF0);
          to_char (Z.land (Z.shiftr code_point 12) 0x3F + 0x80);
          to_char (Z.land (Z.shiftr code_point 6) 0x3F + 0x80);
          to_char (Z.land code_point 0x3F + 0x80)]
  else None.

(** Writes one code point as one UTF-16 unit or as a surrogate pair. *)
Definition write_utf16_code_point (codepoint : Z) : list Z :=
  if codepoint <=? max_single_utf16_unit then
    [char16_t codepoint]
  else
    let LEAD_OFFSET := 0xD800 - Z.shiftr 0x10000 10 in
    [char16_t (LEAD_OFFSET + Z.shiftr codepoint 10);
     char16_t (0xDC00 + Z.land codepoint 0x3FF)].

Definition is_high_surrogate (c : Z) : bool := (0xD800 <=? c) && (c <=? 0xDBFF).
Definition is_low_surrogate (c : Z) : bool := (0xDC00 <=? c) && (c <=? 0xDFFF).

Definition SURROGATE_OFFSET : Z :=
  char32_t (0x10000 - Z.shiftl 0xD800 10 - 0xDC00).

Definition surrogate_pair_to_code_point (high low : Z) : Z :=
  char32_t (Z.shiftl high 10 + low + SURROGATE_OFFSET).

(** UTF-8 to UTF-16: the loop of the facet's [do_in].  It returns the
    result code and the units written before it stopped.  Each turn
    consumes at least one octet, so [fuel] need not exceed the length of
    [from].  [std::wstring_convert] sizes the output so that it is never
    short of room; the output is therefore unbounded here. *)
Fixpoint utf16_in_loop (fuel : nat) (from : list byte) (maxcode : Z)
  : result * list Z :=
  match from, fuel with
  | [], _ => (ok, [])
  | _, O => (partial, [])
  | _, S fuel' =>
    let '(codepoint, from') := read_utf8_code_point from maxcode in
    if codepoint =? incomplete_mb_character then (partial, [])
    else if codepoint >? maxcode then (error, [])
    else
      let '(r, to) := utf16_in_loop fuel' from' maxcode in
      (r, write_utf16_code_point codepoint ++ to)
  end.

Definition utf16_in (from : list byte) (maxcode : Z) : result * list Z :=
  utf16_in_loop (length from) from maxcode.

(** The value of an element of a string whose character type has [bits]
    bits. *)
Definition elem (bits : Z) (u : Z) : Z := u mod 2 ^ bits.

(** UTF-16 to UTF-8: the loop of the facet's [do_out], for elements of
    [bits] bits.  Every element is read into a [char32_t] and is not
    narrowed to 16 bits. *)
Fixpoint utf16_out (bits : Z) (from : list Z) (maxcode : Z)
  : result * list byte :=
  match from with
  | [] => (ok, [])
  | u :: from1 =>
    let c := elem bits u in
    if is_high_surrogate c then
      match from1 with
      | [] => (ok, [])
      | u2 :: from2 =>
        let c2 := elem bits u2 in
        if is_low_surrogate c2 then
          let c := surrogate_pair_to_code_point c c2 in
          if c >? maxcode then (error, [])
          else
            match write_utf8_code_point c with
            | None => (partial, [])
            | Some bs =>
              let '(r, to) := utf16_out bits from2 maxcode in (r, bs ++ to)
            end
        else (error, [])
      end
    else if is_low_surrogate c then (error, [])
    else if c >? maxcode then (error, [])
    else
      match write_utf8_code_point c with
      | None => (partial, [])
      | Some bs =>
        let '(r, to) := utf16_out bits from1 maxcode in (r, bs ++ to)
      end
  end.

(** The exception of [std::wstring_convert]. *)
Inductive exception : Type := range_error.

(** [wstring_convert::from_bytes]: an empty input converts to an empty
    string; otherwise the facet runs once, and only the result [error]
    throws.  After [partial] the units converted so far are returned. *)
Definition from_bytes (str : list byte) : list Z + exception :=
  match str with
  | [] => inl []
  | _ =>
    let '(r, to) := utf16_in str max_code_point in
    if result_eqb r error then inr range_error else inl to
  end.

(** [wstring_convert::to_bytes], likewise. *)
Definition to_bytes (bits : Z) (wstr : list Z) : list byte + exception :=
  match wstr with
  | [] => inl []
  | _ =>
    let '(r, to) := utf16_out bits wstr max_code_point in
    if result_eqb r error then inr range_error else inl to
  end.

End Codecvt.

(** [std::wstring] is a list of [wchar_t] units; [std::u16string] and
    [std::u32string] are lists of 16-bit and 32-bit units. *)
Record u16string : Type := U16 { units16 : list Z }.
Record u32string : Type := U32 { units32 : list Z }.

(** Converts from UTF-8 to UTF-16. *)
Definition utf8ToUtf16 (str : list byte) : list Z :=
  match Codecvt.from_bytes str with
  | inl w => w
  | inr Codecvt.range_error => []
  end.

(** [utf16ToUtf8] is overloaded on the string type. *)
Class Utf16ToUtf8 (S : Type) : Type := utf16ToUtf8 : S -> list byte.

(** Converts from UTF-16 to UTF-8, when [wchar_t] is 2 bytes. *)
#[global] Instance utf16ToUtf8_u16string : Utf16ToUtf8 u16string :=
  fun str =>
    match Codecvt.to_bytes 16 (units16 str) with
    | inl s => s
    | inr Codecvt.range_error => []
    end.

(** Converts from UTF-16 to UTF-8, when [wchar_t] is 4 bytes. *)
#[global] Instance utf16ToUtf8_u32string : Utf16ToUtf8 u32string :=
  fun str =>
    match Codecvt.to_bytes 32 (units32 str) with
    | inl s => s
    | inr Codecvt.range_error => []
    end.

(** *** Reference encodings

    UTF-8 as the Unicode Standard defines it (Table 3-6, the distribution of
    the bits of a scalar value over one to four octets), written with
    division and remainder. *)

Definition is_scalar (cp : Z) : Prop :=
  0 <= cp <= 0x10FFFF /\ ~ (0xD800 <= cp <= 0xDFFF).

Definition is_scalarb (cp : Z) : bool :=
  (0 <=? cp) && (cp <=? 0x10FFFF) && negb ((0xD800 <=? cp) && (cp <=? 0xDFFF)).

Definition utf8_encode_cp (cp : Z) : list byte :=
  if cp <? 0x80 then [to_char cp]
  else if cp <? 0x800 then
    [to_char (0xC0 + cp / 64); to_char (0x80 + cp mod 64)]
  else if cp <? 0x10000 then
    [to_char (0xE0 + cp / 4096); to_char (0x80 + (cp / 64) mod 64);
     to_char (0x80 + cp mod 64)]
  else
    [to_char (0xF0 + cp / 262144); to_char (0x80 + (cp / 4096) mod 64);
     to_char (0x80 + (cp / 64) mod 64); to_char (0x80 + cp mod 64)].

Definition utf8_encode (cps : list Z) : list byte :=
  flat_map utf8_encode_cp cps.

(** A narrow string is valid UTF-8 when it encodes a sequence of Unicode
    scalar values. *)
Definition valid_utf8 (str : list byte) : Prop :=
  exists cps, Forall is_scalar cps /\ str = utf8_encode cps.

(** UTF-16 (Unicode Standard, Table 3-5). *)
Definition utf16_encode_cp (cp : Z) : list Z :=
  if cp <? 0x10000 then [cp]
  else [0xD800 + (cp - 0x10000) / 1024; 0xDC00 + (cp - 0x10000) mod 1024].

Definition utf16_encode (cps : list Z) : list Z :=
  flat_map utf16_encode_cp cps.

Definition bytes (l : list Z) : list byte := to_char <$> l.


(** The byte sequences the decoder rejects: the whole of a candidate
    sequence is in the buffer and it is not the encoding of a code point. *)
Definition is_trail (b : byte) : Prop := 0x80 <= uchar b < 0xC0.

Inductive invalid_sequence : list byte -> Prop :=
| invalid_lead b rest :
    0x80 <= uchar b < 0xC2 \/ 0xF5 <= uchar b ->
    invalid_sequence (b :: rest)
| invalid_two b1 b2 rest :
    0xC2 <= uchar b1 < 0xE0 ->
    ~ is_trail b2 ->
    invalid_sequence (b1 :: b2 :: rest)
| invalid_three b1 b2 b3 rest :
    0xE0 <= uchar b1 < 0xF0 ->
    ~ is_trail b2 \/ (uchar b1 = 0xE0 /\ uchar b2 < 0xA0) \/ ~ is_trail b3 ->
    invalid_sequence (b1 :: b2 :: b3 :: rest)
| invalid_four b1 b2 b3 b4 rest :
    0xF0 <= uchar b1 < 0xF5 ->
    ~ is_trail b2 \/ (uchar b1 = 0xF0 /\ uchar b2 < 0x90)
    \/ (uchar b1 = 0xF4 /\ 0x90 <= uchar b2)
    \/ ~ is_trail b3 \/ ~ is_trail b4 ->
    invalid_sequence (b1 :: b2 :: b3 :: b4 :: rest).

(** The tails the decoder finds incomplete: a lead byte announcing more
    bytes than the buffer has left.  The bytes that are there are not
    looked at. *)
Inductive incomplete_sequence : list byte -> Prop :=
| incomplete_one b1 :
    0xC2 <= uchar b1 < 0xF5 -> incomplete_sequence [b1]
| incomplete_two b1 b2 :
    0xE0 <= uchar b1 < 0xF5 -> incomplete_sequence [b1; b2]
| incomplete_three b1 b2 b3 :
    0xF0 <= uchar b1 < 0xF5 -> incomplete_sequence [b1; b2; b3].


(** ** Byte order

    How the octets of a [uint32_t] are laid out in memory is a property of
    the platform.  [object_repr] gives the object representation, first
    memory octet first; reading member [split] of the union after [single]
    has been written reads that representation. *)

Inductive endianness : Type := BigEndian | LittleEndian | MiddleEndian.

(** The octet of [value] of weight [2^(8k)]. *)
Definition octet (value : Z) (k : Z) : Z :=
  Z.land (Z.shiftr value (8 * k)) 0xFF.

Definition object_repr (e : endianness) (value : Z) : list Z :=
  match e with
  | BigEndian => [octet value 3; octet value 2; octet value 1; octet value 0]
  | LittleEndian => [octet value 0; octet value 1; octet value 2; octet value 3]
  | MiddleEndian => [octet value 2; octet value 3; octet value 0; octet value 1]
  end.

(** This union is used by [isBigEndian] to determine the endianness. *)
Record SingleSplit4Bytes : Type := mkSingleSplit4Bytes { single : Z }.

Definition split (e : endianness) (u : SingleSplit4Bytes) (i : nat) : Z :=
  nth i (object_repr e (single u)) 0.

(** Detects whether the architecture is big-endian. *)
Definition isBigEndian (e : endianness) : bool :=
  split e (mkSingleSplit4Bytes 0x01020304) 0 =? 1.

(** [__builtin_bswap16] and [_byteswap_ushort]. *)
Definition bswap16 (value : Z) : Z :=
  Z.lor (Z.shiftl (Z.land value 0xFF) 8) (Z.land (Z.shiftr value 8) 0xFF).

(** Converts from network byte order to host byte order. *)
Definition networkToHost (e : endianness) (value : Z) : Z :=
  if isBigEndian e then value else bswap16 value.

(** A 16-bit value with its two octets exchanged, arithmetically. *)
Definition swap_octets (v : Z) : Z := 256 * (v mod 256) + v / 256.

(** ** [sinCos]

    The floating-point environment is explicit state: [errno] and the set
    of exception flags that are raised.  Flags are sticky: an operation adds
    the exceptions it raises to the set.  The numbers themselves and libm
    are parameters. *)

Module Fenv.

Inductive fexcept : Type :=
| FE_INVALID | FE_DIVBYZERO | FE_OVERFLOW | FE_UNDERFLOW | FE_INEXACT.

Definition fexcept_eqb (a b : fexcept) : bool :=
  match a, b with
  | FE_INVALID, FE_INVALID | FE_DIVBYZERO, FE_DIVBYZERO
  | FE_OVERFLOW, FE_OVERFLOW | FE_UNDERFLOW, FE_UNDERFLOW
  | FE_INEXACT, FE_INEXACT => true
  | _, _ => false
  end.

Definition mem_except (a : fexcept) (l : list fexcept) : bool :=
  existsb (fexcept_eqb a) l.

Definition FE_ALL_EXCEPT : list fexcept :=
  [FE_INVALID; FE_DIVBYZERO; FE_OVERFLOW; FE_UNDERFLOW; FE_INEXACT].

Record env : Type := mkEnv { errno : Z; flags : list fexcept }.

Definition set_errno (n : Z) (s : env) : env := mkEnv n (flags s).

Definition feclearexcept (excepts : list fexcept) (s : env) : env :=
  mkEnv (errno s) (List.filter (fun a => negb (mem_except a excepts)) (flags s)).

Definition feraise (excepts : list fexcept) (s : env) : env :=
  mkEnv (errno s) (flags s ++ excepts).

(** The flags among [excepts] that are set; the C function returns their
    bitwise OR, which is 0 exactly when this list is empty. *)
Definition fetestexcept (excepts : list fexcept) (s : env) : list fexcept :=
  List.filter (fun a => mem_except a excepts) (flags s).

(** The comparison of that result with 0. *)
Definition is_zero (set : list fexcept) : bool :=
  match set with [] => true | _ :: _ => false end.

End Fenv.

Section SinCos.

Import Fenv.

Variable float : Type.
(** [sin] and [cos] of the C library. *)
Variables sin cos : float -> float.
(** [sincosf]: both values, and the exceptions the evaluation raises. *)
Variable sincosf : float -> float * float * list fexcept.
(** Whether the header is compiled with [OS_WINDOWS] defined. *)
Variable OS_WINDOWS : bool.

(** Calculates sine and cosine of the specified value.  The result is the
    returned flag and the two output parameters. *)
Definition sinCos (value : float) (s : env) : (bool * float * float) * env :=
  if OS_WINDOWS then
    ((true, sin value, cos value), s)
  else
    let s := set_errno 0 s in
    let s := feclearexcept FE_ALL_EXCEPT s in
    let '(outSin, outCos, raised) := sincosf value in
    let s := feraise raised s in
    let test :=
      fetestexcept [FE_INVALID; FE_DIVBYZERO; FE_OVERFLOW; FE_UNDERFLOW] s in
    ((is_zero test, outSin, outCos), s).

End SinCos.

(** ** [readFile]

    The file system maps the paths that can be opened for reading to the
    contents of the file.  [std::ifstream] is modelled by its state bits,
    the unread part of the file and the count of the last read. *)

Module Ifstream.

Record ifstream : Type := mkIfstream {
  unread : list byte;
  eofbit : bool;
  failbit : bool;
  badbit : bool;
  last_count : nat
}.

(** The constructor: opening a file that cannot be opened sets
    [failbit]. *)
Definition open (fs : gmap string (list byte)) (path : string) : ifstream :=
  match fs !! path with
  | Some data => mkIfstream data false false false 0
  | None => mkIfstream [] false true false 0
  end.

Definition good (s : ifstream) : bool :=
  negb (eofbit s || failbit s || badbit s).

(** [read(buf, n)]: extracts [n] characters, or what is left, in which
    case [eofbit] and [failbit] are set.  On a stream that is not good
    nothing is extracted and [failbit] is set.  Returns what was stored
    into [buf]. *)
Definition read (n : nat) (s : ifstream) : list byte * ifstream :=
  if good s then
    if (length (unread s) <? n)%nat then
      (unread s, mkIfstream [] true true (badbit s) (length (unread s)))
    else
      (take n (unread s),
       mkIfstream (drop n (unread s)) false false (badbit s) n)
  else ([], mkIfstream (unread s) (eofbit s) true (badbit s) 0).

Definition gcount (s : ifstream) : nat := last_count s.

End Ifstream.

(** The [while] loop of [readFile]. *)
Fixpoint readFile_loop (fuel : nat) (ifs : Ifstream.ifstream)
    (content : list byte) : list byte :=
  match fuel with
  | O => content
  | S fuel' =>
    if Ifstream.good ifs then
      let '(buf, ifs) := Ifstream.read 256 ifs in
      let read := Ifstream.gcount ifs in
      let content :=
        if (0 <? read)%nat then content ++ take read buf else content in
      readFile_loop fuel' ifs content
    else content
  end.

(** Reads the file's content and returns it.  Every turn of the loop but
    the last extracts 256 octets, so one more turn than the file has octets
    is always enough. *)
Definition readFile (fs : gmap string (list byte)) (path : string) : list byte :=
  let ifs := Ifstream.open fs path in
  readFile_loop (S (length (Ifstream.unread ifs))) ifs [].

(** The buffer of the specification's example: [a b], a double quote,
    [c d], the octet 1, [e f]. *)
Definition example_buffer : list byte :=
  bytes [0x61; 0x62; 0x22; 0x63; 0x64; 0x01; 0x65; 0x66].

(** The 16-bit sequences the encoder rejects: a low surrogate where a
    character should start, or a high surrogate followed by a unit that is
    not a low surrogate. *)
Inductive invalid_utf16 : list Z -> Prop :=
| lone_low_surrogate u rest :
    0xDC00 <= u <= 0xDFFF ->
    invalid_utf16 (u :: rest)
| unpaired_high_surrogate u u2 rest :
    0xD800 <= u <= 0xDBFF ->
    0 <= u2 < 2 ^ 16 ->
    ~ (0xDC00 <= u2 <= 0xDFFF) ->
    invalid_utf16 (u :: u2 :: rest).

(** The [uint16_t] a host reads from two consecutive octets of memory,
    [b0] at the lower address.  The mixed layout stores 16-bit words
    low octet first. *)
Definition load16 (e : endianness) (b0 b1 : Z) : Z :=
  match e with
  | BigEndian => 256 * b0 + b1
  | LittleEndian | MiddleEndian => b0 + 256 * b1
  end.

(* ================================================================== *)
(** * Properties *)
(* ================================================================== *)

(** ** Characters *)

Lemma uchar_range (b : byte) : 0 <= uchar b < 256.
Proof.
  unfold uchar. pose proof (Byte.to_N_bounded b). lia.
Qed.

Lemma uchar_to_char (z : Z) : uchar (to_char z) = z mod 256.
Proof.
  unfold uchar, to_char.
  pose proof (Z.mod_pos_bound z 256 ltac:(lia)) as Hz.
  destruct (Byte.of_N (Z.to_N (z mod 256))) as [b|] eqn:E.
  - apply Byte.to_of_N in E. simpl. rewrite E. lia.
  - apply Byte.of_N_None_iff in E. lia.
Qed.

Lemma uchar_to_char_small (z : Z) : 0 <= z < 256 -> uchar (to_char z) = z.
Proof.
  intros Hz. rewrite uchar_to_char. apply Z.mod_small. exact Hz.
Qed.

Lemma uchar_inj (a b : byte) : uchar a = uchar b -> a = b.
Proof.
  unfold uchar. intros H. apply N2Z.inj in H.
  pose proof (Byte.of_to_N a) as Ha. rewrite H, Byte.of_to_N in Ha.
  congruence.
Qed.

Lemma to_char_uchar (b : byte) : to_char (uchar b) = b.
Proof.
  apply uchar_inj. apply uchar_to_char_small, uchar_range.
Qed.


(** ** The machine *)

Lemma bind_done {A B} (m : M A) (k : A -> M B) s a s' :
  m s = Done (a, s') -> (m ≫= k) s = k a s'.
Proof.
  intros H. unfold mbind, machine_bind, bind. rewrite H. reflexivity.
Qed.

Lemma in_bounds_app pre (b : byte) rest tr :
  in_bounds (mkState (pre ++ b :: rest) tr) (Z.of_nat (length pre)) = true.
Proof.
  unfold in_bounds. simpl. rewrite length_app. simpl.
  apply andb_true_intro. split; [apply Z.leb_le | apply Z.ltb_lt]; lia.
Qed.

Lemma load_app pre b rest tr :
  load (Z.of_nat (length pre)) (mkState (pre ++ b :: rest) tr)
  = Done (b, mkState (pre ++ b :: rest) (tr ++ [Rd (Z.of_nat (length pre))])).
Proof.
  unfold load. rewrite in_bounds_app. simpl.
  rewrite Nat2Z.id, list_lookup_middle by reflexivity. reflexivity.
Qed.

Lemma store_app pre b rest tr x :
  store (Z.of_nat (length pre)) x (mkState (pre ++ b :: rest) tr)
  = Done (tt, mkState (pre ++ x :: rest) (tr ++ [Wr (Z.of_nat (length pre))])).
Proof.
  unfold store. rewrite in_bounds_app. simpl.
  rewrite Nat2Z.id, insert_app_r_alt, Nat.sub_diag by lia. reflexivity.
Qed.

(** ** [escape] *)

Lemma char_val_zero sgn b : (char_val sgn b =? 0) = (uchar b =? 0).
Proof.
  pose proof (uchar_range b). unfold char_val, schar.
  destruct sgn; [destruct (Z.ltb_spec (uchar b) 128) |]; try reflexivity.
  destruct (Z.eqb_spec (uchar b - 256) 0), (Z.eqb_spec (uchar b) 0); lia || reflexivity.
Qed.

Lemma char_val_quote sgn b : (char_val sgn b =? 34) = (uchar b =? 34).
Proof.
  pose proof (uchar_range b). unfold char_val, schar.
  destruct sgn; [destruct (Z.ltb_spec (uchar b) 128) |]; try reflexivity.
  destruct (Z.eqb_spec (uchar b - 256) 34), (Z.eqb_spec (uchar b) 34); lia || reflexivity.
Qed.

(** Whatever the signedness of [char], the test [*c < 32 || *c > 126]
    selects the octets outside 32..126. *)
Lemma char_val_unprintable sgn b :
  (char_val sgn b <? 32) || (char_val sgn b >? 126)
  = (uchar b <? 32) || (126 <? uchar b).
Proof.
  pose proof (uchar_range b). unfold char_val, schar.
  rewrite !Z.gtb_ltb.
  destruct sgn; [destruct (Z.ltb_spec (uchar b) 128) |]; try reflexivity.
  destruct (Z.ltb_spec (uchar b - 256) 32), (Z.ltb_spec 126 (uchar b - 256)),
    (Z.ltb_spec (uchar b) 32), (Z.ltb_spec 126 (uchar b)); lia || reflexivity.
Qed.

Lemma sanitize_nonzero b : uchar b <> 0 -> uchar (sanitize b) <> 0.
Proof.
  unfold sanitize. destruct (must_blank b); [|auto].
  intros _. vm_compute. discriminate.
Qed.

Lemma sanitize_clean b : must_blank (sanitize b) = false.
Proof.
  unfold sanitize. destruct (must_blank b) eqn:E; [reflexivity | exact E].
Qed.

Lemma sanitize_idem b : sanitize (sanitize b) = sanitize b.
Proof.
  unfold sanitize at 1. rewrite sanitize_clean. reflexivity.
Qed.

(** The first [if]: a double quote becomes a space. *)
Lemma blank_quote_spec sgn pre b rest tr :
  exists tr',
    blank_quote sgn (Z.of_nat (length pre)) (mkState (pre ++ b :: rest) tr)
    = Done (tt, mkState (pre ++ (if uchar b =? 34 then SPACE else b) :: rest)
                        (tr ++ tr'))
    /\ Forall (fun a => index a = Z.of_nat (length pre)) tr'.
Proof.
  unfold blank_quote.
  rewrite (bind_done _ _ _ _ _ (load_app _ _ _ _)), char_val_quote.
  destruct (uchar b =? 34).
  - rewrite store_app, <- app_assoc. eexists. split; [reflexivity|].
    repeat constructor.
  - eexists. split; [reflexivity|]. repeat constructor.
Qed.

(** The second [if]: an octet outside 32..126 becomes a space. *)
Lemma blank_unprintable_spec sgn pre b rest tr :
  exists tr',
    blank_unprintable sgn (Z.of_nat (length pre)) (mkState (pre ++ b :: rest) tr)
    = Done (tt, mkState (pre ++ (if (uchar b <? 32) || (126 <? uchar b)
                                 then SPACE else b) :: rest)
                        (tr ++ tr'))
    /\ Forall (fun a => index a = Z.of_nat (length pre)) tr'.
Proof.
  unfold blank_unprintable. rewrite <- (char_val_unprintable sgn).
  rewrite (bind_done _ _ _ _ _ (load_app _ _ _ _)).
  destruct (char_val sgn b <? 32); cbn [orb].
  - rewrite store_app, <- app_assoc. eexists. split; [reflexivity|].
    repeat constructor.
  - rewrite (bind_done _ _ _ _ _ (load_app _ _ _ _)).
    destruct (char_val sgn b >? 126).
    + rewrite store_app, <- !app_assoc. eexists. split; [reflexivity|].
      repeat constructor.
    + rewrite <- !app_assoc. eexists. split; [reflexivity|].
      repeat constructor.
Qed.

Lemma sanitize_two_steps b :
  let b1 := if uchar b =? 34 then SPACE else b in
  (if (uchar b1 <? 32) || (126 <? uchar b1) then SPACE else b1) = sanitize b.
Proof.
  unfold sanitize, must_blank.
  destruct (uchar b =? 34); cbn [orb]; [reflexivity|].
  reflexivity.
Qed.

(** One turn of the loop on a non-[NUL] octet: the octet is sanitized, the
    cursor moves on, and only the cursor's cell is touched. *)
Lemma escape_loop_step sgn fuel pre b rest tr :
  uchar b <> 0 ->
  exists tr',
    escape_loop sgn (S fuel) (Z.of_nat (length pre)) (mkState (pre ++ b :: rest) tr)
    = escape_loop sgn fuel (Z.of_nat (length pre) + 1)
        (mkState (pre ++ sanitize b :: rest) (tr ++ tr'))
    /\ Forall (fun a => index a = Z.of_nat (length pre)) tr'.
Proof.
  intros Hb. cbn [escape_loop].
  rewrite (bind_done _ _ _ _ _ (load_app _ _ _ _)).
  rewrite char_val_zero. destruct (Z.eqb_spec (uchar b) 0) as [|_]; [contradiction|].
  destruct (blank_quote_spec sgn pre b rest (tr ++ [Rd (Z.of_nat (length pre))]))
    as (t1 & E1 & F1).
  rewrite (bind_done _ _ _ _ _ E1).
  match type of E1 with _ = Done (_, mkState (_ ++ ?x :: _) ?t) =>
    destruct (blank_unprintable_spec sgn pre x rest t) as (t2 & E2 & F2) end.
  rewrite (bind_done _ _ _ _ _ E2).
  rewrite (sanitize_two_steps b), <- !app_assoc.
  eexists. split; [reflexivity|].
  constructor; [reflexivity|]. apply Forall_app. split; assumption.
Qed.

(** The scan over a string [body] that holds no [NUL] and is followed by
    one: every octet of [body] is sanitized, nothing else changes, and the
    accesses stay between the start of the scan and the [NUL]. *)
Lemma escape_loop_spec sgn body : forall pre post tr fuel,
  Forall (fun b => uchar b <> 0) body ->
  (length body < fuel)%nat ->
  exists tr',
    escape_loop sgn fuel (Z.of_nat (length pre))
      (mkState (pre ++ body ++ NUL :: post) tr)
    = Done (tt, mkState (pre ++ (sanitize <$> body) ++ NUL :: post) (tr ++ tr'))
    /\ Forall (fun a => Z.of_nat (length pre) <= index a
                        <= Z.of_nat (length pre + length body)) tr'
    /\ Forall (fun a => is_write a = true ->
                        index a < Z.of_nat (length pre + length body)) tr'.
Proof.
  induction body as [|b body IH]; intros pre post tr fuel Hnz Hfuel.
  - destruct fuel as [|fuel]; [simpl in Hfuel; lia|].
    cbn [escape_loop app fmap list_fmap].
    rewrite (bind_done _ _ _ _ _ (load_app _ _ _ _)), char_val_zero.
    change (uchar NUL =? 0) with true. cbv beta iota.
    eexists. split; [reflexivity|].
    split; repeat constructor; simpl; lia || discriminate.
  - destruct fuel as [|fuel]; [simpl in Hfuel; lia|].
    inversion Hnz as [|? ? Hb Hnz']; subst.
    destruct (escape_loop_step sgn fuel pre b (body ++ NUL :: post) tr Hb)
      as (t1 & E1 & F1).
    cbn [app]. rewrite E1.
    specialize (IH (pre ++ [sanitize b]) post (tr ++ t1) fuel Hnz'
                  ltac:(simpl in Hfuel; lia)).
    destruct IH as (t2 & E2 & F2 & W2).
    rewrite length_app in E2, F2, W2. cbn [length] in E2, F2, W2.
    rewrite <- app_assoc in E2. cbn [app] in E2.
    replace (Z.of_nat (length pre + 1)) with (Z.of_nat (length pre) + 1) in E2 by lia.
    rewrite E2. rewrite <- !app_assoc. cbn [app fmap list_fmap].
    eexists. split; [reflexivity|].
    split; apply Forall_app; split.
    + eapply Forall_impl; [exact F1|]. cbn [length]. intros a Ha. lia.
    + eapply Forall_impl; [exact F2|]. cbn [length]. intros a Ha. lia.
    + eapply Forall_impl; [exact F1|]. cbn [length]. intros a Ha _. lia.
    + eapply Forall_impl; [exact W2|]. cbn [length]. intros a Ha Hw.
      specialize (Ha Hw). lia.
Qed.

(** *** [strlen] *)

Lemma uchar_zero b : uchar b = 0 -> b = NUL.
Proof. intros H. apply uchar_inj. rewrite H. reflexivity. Qed.

Lemma strlen_le l : (strlen l <= length l)%nat.
Proof.
  induction l as [|b l IH]; simpl; [lia|].
  destruct (uchar b =? 0); simpl; lia.
Qed.

Lemma strlen_nonzero l : Forall (fun b => uchar b <> 0) (take (strlen l) l).
Proof.
  induction l as [|b l IH]; simpl; [constructor|].
  destruct (Z.eqb_spec (uchar b) 0); simpl; constructor; assumption.
Qed.

Lemma strlen_lookup l : (strlen l < length l)%nat -> l !! strlen l = Some NUL.
Proof.
  induction l as [|b l IH]; simpl; [lia|].
  destruct (Z.eqb_spec (uchar b) 0) as [E|E]; simpl; intros H.
  - f_equal. apply uchar_zero, E.
  - apply IH. lia.
Qed.

Lemma strlen_first_nul l n :
  l !! n = Some NUL -> (strlen l <= n)%nat.
Proof.
  revert n. induction l as [|b l IH]; intros n; simpl; [lia|].
  destruct (Z.eqb_spec (uchar b) 0) as [E|E]; [lia|].
  destruct n as [|n]; simpl.
  - intros [= ->]. contradiction E. reflexivity.
  - intros H. apply IH in H. lia.
Qed.

Lemma strlen_app_nul body post :
  Forall (fun b => uchar b <> 0) body -> strlen (body ++ NUL :: post) = length body.
Proof.
  induction 1 as [|b body Hb _ IH]; simpl; [reflexivity|].
  destruct (Z.eqb_spec (uchar b) 0); [contradiction|]. f_equal. exact IH.
Qed.

(** *** The buffer after [escape] *)

Section Escaped.

Variables (str : list byte) (size : Z).
Hypothesis Hcap : valid_capacity str size.

Let last := Z.to_nat (size - 1).
Let m := <[last := NUL]> str.
Let k := strlen m.

Lemma forced_lookup : m !! last = Some NUL.
Proof.
  subst m last. apply list_lookup_insert_eq.
  destruct Hcap. lia.
Qed.

Lemma forced_strlen : (k <= last)%nat.
Proof. apply strlen_first_nul, forced_lookup. Qed.

Lemma forced_length : length m = length str.
Proof. apply length_insert. Qed.

Lemma last_lt : (last < length str)%nat.
Proof. subst last. destruct Hcap. lia. Qed.

Lemma forced_split : m = take k m ++ NUL :: drop (S k) m.
Proof.
  rewrite <- (drop_S m NUL k).
  - symmetry. apply take_drop.
  - apply strlen_lookup. pose proof forced_strlen. pose proof last_lt.
    rewrite forced_length. lia.
Qed.

Lemma escaped_eq :
  escaped str size = (sanitize <$> take k m) ++ NUL :: drop (S k) m.
Proof.
  unfold escaped. fold last. fold m. fold k.
  rewrite <- (drop_S m NUL k); [reflexivity|].
  apply strlen_lookup. pose proof forced_strlen. pose proof last_lt.
  rewrite forced_length. lia.
Qed.

Lemma escaped_length : length (escaped str size) = length str.
Proof.
  unfold escaped. fold last. fold m. fold k.
  rewrite length_app, length_fmap, <- length_app, take_drop.
  apply forced_length.
Qed.

Lemma escaped_lookup_lt i :
  (i < k)%nat -> escaped str size !! i = sanitize <$> str !! i.
Proof.
  intros Hi. unfold escaped. fold last. fold m. fold k.
  pose proof forced_strlen. pose proof (strlen_le m). fold k in H0.
  rewrite lookup_app_l by (rewrite length_fmap, length_take; lia).
  rewrite list_lookup_fmap, lookup_take_lt by lia.
  subst m. rewrite list_lookup_insert_ne by lia. reflexivity.
Qed.

Lemma escaped_lookup_ge i :
  (k <= i)%nat -> escaped str size !! i = m !! i.
Proof.
  intros Hi. unfold escaped. fold last. fold m. fold k.
  pose proof (strlen_le m). fold k in H.
  rewrite lookup_app_r by (rewrite length_fmap, length_take; lia).
  rewrite length_fmap, length_take, Nat.min_l by lia.
  rewrite lookup_drop. f_equal. lia.
Qed.

Lemma escaped_last : escaped str size !! last = Some NUL.
Proof.
  rewrite escaped_lookup_ge by apply forced_strlen. apply forced_lookup.
Qed.

Lemma escaped_strlen : strlen (escaped str size) = k.
Proof.
  rewrite escaped_eq, strlen_app_nul.
  - pose proof (strlen_le m). fold k in H.
    rewrite length_fmap, length_take. lia.
  - apply Forall_fmap. eapply Forall_impl; [apply strlen_nonzero|].
    intros b Hb. apply sanitize_nonzero, Hb.
Qed.

Lemma escaped_take : take k (escaped str size) = sanitize <$> take k m.
Proof.
  unfold escaped. fold last. fold m. fold k.
  pose proof (strlen_le m). fold k in H.
  rewrite take_app_length'; [reflexivity|].
  rewrite length_fmap, length_take. lia.
Qed.

Lemma escaped_drop : drop k (escaped str size) = drop k m.
Proof.
  unfold escaped. fold last. fold m. fold k.
  pose proof (strlen_le m). fold k in H.
  rewrite drop_app_length'; [reflexivity|].
  rewrite length_fmap, length_take. lia.
Qed.

Lemma escaped_valid : valid_capacity (escaped str size) size.
Proof. unfold valid_capacity. rewrite escaped_length. exact Hcap. Qed.

(** Sanitizing a sanitized buffer changes nothing. *)
Lemma escaped_idem : escaped (escaped str size) size = escaped str size.
Proof.
  unfold escaped at 1. fold last.
  rewrite (list_insert_id _ _ _ escaped_last), escaped_strlen.
  rewrite escaped_take, escaped_drop, <- list_fmap_compose.
  unfold escaped. fold last. fold m. fold k. f_equal.
  apply list_fmap_ext. intros ? b _. apply sanitize_idem.
Qed.

(** [escape] returns, with [escaped] in the buffer and all accesses inside
    the declared capacity and not past the first [NUL]. *)
Lemma run_escape_spec sgn fuel :
  (Z.to_nat size <= fuel)%nat ->
  exists tr,
    run_escape sgn fuel str size = Done (escaped str size, tr)
    /\ Forall (fun a => 0 <= index a < size) tr
    /\ Forall (fun a => is_write a = false -> index a <= Z.of_nat k) tr.
Proof.
  intros Hfuel. pose proof forced_strlen as Hk. pose proof last_lt as Hl.
  destruct Hcap as [Hs Hs64].
  unfold run_escape, escape.
  assert (Hst : store (size_t (size - 1)) (to_char 0) (mkState str [])
                = Done (tt, mkState m [Wr (size - 1)])).
  { unfold store, size_t, in_bounds. rewrite Z.mod_small by lia. simpl.
    destruct (Z.leb_spec 0 (size - 1)); [|lia].
    destruct (Z.ltb_spec (size - 1) (Z.of_nat (length str))); [|lia].
    reflexivity. }
  rewrite (bind_done _ _ _ _ _ Hst).
  destruct (escape_loop_spec sgn (take k m) [] (drop (S k) m) [Wr (size - 1)] fuel)
    as (tr' & E & F & W).
  { apply strlen_nonzero. }
  { rewrite length_take. subst last. lia. }
  cbn [app length] in E. rewrite <- forced_split in E.
  change (Z.of_nat 0) with 0 in E. rewrite E. cbn [mem trace].
  rewrite escaped_eq. eexists. split; [reflexivity|].
  assert (Hlen : length (take k m) = k).
  { pose proof (strlen_le m). fold k in H. rewrite length_take. lia. }
  rewrite Hlen in F, W. cbn [length Nat.add] in F, W.
  split; (constructor; [cbn; subst last; try lia; discriminate|]).
  - eapply Forall_impl; [exact F|]. intros a Ha. cbn in Ha. subst last. lia.
  - eapply Forall_impl; [exact F|]. intros a Ha _. cbn in Ha. lia.
Qed.

End Escaped.

(** *** Claims about [escape] *)

Lemma must_blank_spec (b : byte) :
  must_blank b = true <-> uchar b = 34 \/ ~ (32 <= uchar b <= 126).
Proof.
  unfold must_blank. rewrite !orb_true_iff, Z.eqb_eq, !Z.ltb_lt. lia.
Qed.

Lemma example_buffer_capacity : valid_capacity example_buffer 8.
Proof. unfold valid_capacity. simpl. lia. Qed.

(** C4.  For a buffer of at least [size >= 1] octets, [escape] returns and
    leaves a buffer of the same length in which the octet at [size - 1] is
    [NUL]; the first [NUL] is where it was once that octet had been
    cleared; before it, an octet that was a double quote or lay outside
    32..126 is a space and every other octet is unchanged.  This holds
    whether [char] is signed or not. *)
Theorem escape_sanitizes (char_is_signed : bool) (fuel : nat)
    (str : list byte) (size : Z) :
  valid_capacity str size ->
  (Z.to_nat size <= fuel)%nat ->
  exists str' tr,
    run_escape char_is_signed fuel str size = Done (str', tr)
    /\ length str' = length str
    /\ str' !! Z.to_nat (size - 1) = Some NUL
    /\ strlen str' = strlen (<[Z.to_nat (size - 1) := NUL]> str)
    /\ forall (i : nat) (b : byte),
         (i < strlen str')%nat -> str !! i = Some b ->
         (uchar b = 34 \/ ~ (32 <= uchar b <= 126) -> str' !! i = Some SPACE)
         /\ (~ (uchar b = 34 \/ ~ (32 <= uchar b <= 126)) -> str' !! i = Some b).
Proof.
  intros Hcap Hfuel.
  destruct (run_escape_spec str size Hcap char_is_signed fuel Hfuel)
    as (tr & Hrun & _).
  exists (escaped str size), tr. split; [exact Hrun|].
  split; [apply escaped_length|].
  split; [apply escaped_last, Hcap|].
  split; [apply escaped_strlen, Hcap|].
  intros i b Hi Hb. rewrite escaped_strlen in Hi by exact Hcap.
  rewrite (escaped_lookup_lt str size Hcap i Hi), Hb. cbn [fmap option_fmap option_map].
  unfold sanitize. rewrite <- must_blank_spec.
  destruct (must_blank b); split; intros H; congruence.
Qed.

Lemma escape_sanitizes_witness :
  valid_capacity example_buffer 8
  /\ exists str' tr,
       run_escape true 8 example_buffer 8 = Done (str', tr)
       /\ length str' = length example_buffer
       /\ str' !! Z.to_nat (8 - 1) = Some NUL
       /\ strlen str' = strlen (<[Z.to_nat (8 - 1) := NUL]> example_buffer)
       /\ forall (i : nat) (b : byte),
            (i < strlen str')%nat -> example_buffer !! i = Some b ->
            (uchar b = 34 \/ ~ (32 <= uchar b <= 126) -> str' !! i = Some SPACE)
            /\ (~ (uchar b = 34 \/ ~ (32 <= uchar b <= 126)) -> str' !! i = Some b).
Proof.
  split; [exact example_buffer_capacity|].
  apply (escape_sanitizes true 8 example_buffer 8 example_buffer_capacity).
  simpl. lia.
Defined.

(** C5.  Under the same contract every access of [escape] is at an offset
    below [size], so no write (and no read) leaves the declared capacity,
    and no read is at an offset past the first [NUL] of the buffer as it is
    once the last octet has been cleared. *)
Theorem escape_stays_in_bounds (char_is_signed : bool) (fuel : nat)
    (str : list byte) (size : Z) :
  valid_capacity str size ->
  (Z.to_nat size <= fuel)%nat ->
  exists str' tr,
    run_escape char_is_signed fuel str size = Done (str', tr)
    /\ Forall (fun a => 0 <= index a < size) tr
    /\ Forall (fun a => is_write a = false ->
                 index a
                 <= Z.of_nat (strlen (<[Z.to_nat (size - 1) := NUL]> str))) tr.
Proof.
  intros Hcap Hfuel.
  destruct (run_escape_spec str size Hcap char_is_signed fuel Hfuel)
    as (tr & Hrun & Hin & Hrd).
  exists (escaped str size), tr. auto.
Qed.

Lemma escape_stays_in_bounds_witness :
  valid_capacity example_buffer 8
  /\ exists str' tr,
       run_escape false 8 example_buffer 8 = Done (str', tr)
       /\ Forall (fun a => 0 <= index a < 8) tr
       /\ Forall (fun a => is_write a = false ->
                    index a
                    <= Z.of_nat (strlen (<[Z.to_nat (8 - 1) := NUL]> example_buffer)))
            tr.
Proof.
  split; [exact example_buffer_capacity|].
  apply (escape_stays_in_bounds false 8 example_buffer 8 example_buffer_capacity).
  simpl. lia.
Defined.

(** C10.  [escape] is idempotent: run on the buffer it has just produced,
    with the same capacity, it returns and leaves that buffer as it is.
    Indeed after one run no octet before the first [NUL] is a double quote
    or lies outside 32..126, and the octet at [size - 1] is [NUL]. *)
Theorem escape_idempotent (char_is_signed : bool) (fuel : nat)
    (str : list byte) (size : Z) :
  valid_capacity str size ->
  (Z.to_nat size <= fuel)%nat ->
  exists str1 tr1 tr2,
    run_escape char_is_signed fuel str size = Done (str1, tr1)
    /\ run_escape char_is_signed fuel str1 size = Done (str1, tr2)
    /\ Forall (fun b => must_blank b = false) (take (strlen str1) str1)
    /\ str1 !! Z.to_nat (size - 1) = Some NUL.
Proof.
  intros Hcap Hfuel.
  destruct (run_escape_spec str size Hcap char_is_signed fuel Hfuel)
    as (tr1 & Hrun1 & _).
  pose proof (escaped_valid str size Hcap) as Hcap1.
  destruct (run_escape_spec _ size Hcap1 char_is_signed fuel Hfuel)
    as (tr2 & Hrun2 & _).
  rewrite (escaped_idem str size Hcap) in Hrun2.
  exists (escaped str size), tr1, tr2.
  split; [exact Hrun1|]. split; [exact Hrun2|].
  split; [|apply escaped_last, Hcap].
  rewrite (escaped_strlen str size Hcap), (escaped_take str size).
  apply Forall_fmap, Forall_forall. intros b _. apply sanitize_clean.
Qed.

Lemma escape_idempotent_witness :
  valid_capacity example_buffer 8
  /\ exists str1 tr1 tr2,
       run_escape true 8 example_buffer 8 = Done (str1, tr1)
       /\ run_escape true 8 str1 8 = Done (str1, tr2)
       /\ Forall (fun b => must_blank b = false) (take (strlen str1) str1)
       /\ str1 !! Z.to_nat (8 - 1) = Some NUL.
Proof.
  split; [exact example_buffer_capacity|].
  apply (escape_idempotent true 8 example_buffer 8 example_buffer_capacity).
  simpl. lia.
Defined.

(** The example of the specification, evaluated. *)
Example escape_example :
  exists tr, run_escape true 8 example_buffer 8
             = Done (bytes [0x61; 0x62; 0x20; 0x63; 0x64; 0x20; 0x65; 0x00], tr).
Proof. eexists. vm_compute. reflexivity. Qed.

(** A buffer filled with printable characters and no [NUL]: the last
    octet is overwritten. *)
Example escape_full_buffer :
  exists tr, run_escape false 4 (bytes [0x61; 0x62; 0x63; 0x64]) 4
             = Done (bytes [0x61; 0x62; 0x63; 0x00], tr).
Proof. eexists. vm_compute. reflexivity. Qed.

(** With [size = 0] the first store is at offset [SIZE_MAX]: undefined. *)
Example escape_zero_capacity :
  run_escape true 8 example_buffer 0 = Undefined.
Proof. vm_compute. reflexivity. Qed.

(** ** Text transcoding *)

Import Codecvt.

(** *** Shifts and masks as division and remainder *)

Lemma shiftr_div (x : Z) (n : Z) : 0 <= n -> Z.shiftr x n = x / 2 ^ n.
Proof. intros. apply Z.shiftr_div_pow2. assumption. Qed.

Lemma shiftl_mul (x : Z) (n : Z) : 0 <= n -> Z.shiftl x n = x * 2 ^ n.
Proof. intros. apply Z.shiftl_mul_pow2. assumption. Qed.

Lemma land_3F (x : Z) : Z.land x 0x3F = x mod 64.
Proof. change 0x3F with (Z.ones 6). rewrite Z.land_ones by lia. reflexivity. Qed.

Lemma land_3FF (x : Z) : Z.land x 0x3FF = x mod 1024.
Proof. change 0x3FF with (Z.ones 10). rewrite Z.land_ones by lia. reflexivity. Qed.

Lemma is_continuation_uchar (b : byte) :
  is_continuation (uchar b) = (0x80 <=? uchar b) && (uchar b <? 0xC0).
Proof. destruct b; reflexivity. Qed.

Lemma is_continuation_range (c : Z) :
  0 <= c < 256 -> is_continuation c = (0x80 <=? c) && (c <? 0xC0).
Proof.
  intros Hc. rewrite <- (uchar_to_char_small c Hc). apply is_continuation_uchar.
Qed.

Lemma is_continuation_tail (x : Z) :
  0 <= x < 64 -> is_continuation (0x80 + x) = true.
Proof.
  intros Hx. rewrite is_continuation_range by lia.
  apply andb_true_intro. split; [apply Z.leb_le | apply Z.ltb_lt]; lia.
Qed.

Ltac shifts :=
  rewrite ?shiftr_div, ?shiftl_mul, ?land_3F, ?land_3FF by lia;
  change (2 ^ 6) with 64 in *; change (2 ^ 10) with 1024 in *;
  change (2 ^ 12) with 4096 in *; change (2 ^ 18) with 262144 in *.

Ltac zarith := Z.div_mod_to_equations; lia.

(** Decides the comparisons of the goal, keeping the feasible branch. *)
Ltac decide_tests :=
  repeat match goal with
  | |- context [?a <? ?b] =>
      destruct (Z.ltb_spec a b); [try (exfalso; zarith) | try (exfalso; zarith)]
  | |- context [?a <=? ?b] =>
      destruct (Z.leb_spec a b); [try (exfalso; zarith) | try (exfalso; zarith)]
  | |- context [?a =? ?b] =>
      destruct (Z.eqb_spec a b); [try (exfalso; zarith) | try (exfalso; zarith)]
  | |- context [?a >? ?b] => rewrite (Z.gtb_ltb a b)
  end.

(** Compares two lists of characters given by arithmetic expressions. *)
Ltac same_chars :=
  repeat match goal with
  | |- Some _ = Some _ => f_equal
  | |- _ :: _ = _ :: _ => f_equal
  | |- to_char _ = to_char _ => apply f_equal; zarith
  end.

(** *** One code point *)

Lemma write_utf8_code_point_encode (cp : Z) :
  0 <= cp <= 0x10FFFF -> write_utf8_code_point cp = Some (utf8_encode_cp cp).
Proof.
  intros Hcp. unfold write_utf8_code_point, utf8_encode_cp. shifts.
  decide_tests; same_chars.
Qed.

(** Reading back what the reference encoder wrote. *)
Lemma read_utf8_code_point_encode (cp : Z) (rest : list byte) :
  0 <= cp <= 0x10FFFF ->
  read_utf8_code_point (utf8_encode_cp cp ++ rest) max_code_point = (cp, rest).
Proof.
  intros Hcp. unfold utf8_encode_cp, max_code_point.
  destruct (Z.ltb_spec cp 0x80); [|destruct (Z.ltb_spec cp 0x800);
    [|destruct (Z.ltb_spec cp 0x10000)]];
    cbn [app read_utf8_code_point];
    rewrite ?uchar_to_char_small by zarith;
    rewrite ?is_continuation_tail by zarith;
    cbn [negb]; unfold char32_t; shifts.
  - decide_tests. reflexivity.
  - decide_tests. 
    all: try (f_equal; zarith).
  - decide_tests; cbn [andb]; decide_tests.
    all: try (f_equal; zarith).
  - decide_tests; cbn [andb]; decide_tests.
    all: try (f_equal; zarith).
Qed.

Lemma write_utf16_code_point_encode (cp : Z) :
  0 <= cp <= 0x10FFFF -> write_utf16_code_point cp = utf16_encode_cp cp.
Proof.
  intros Hcp.
  unfold write_utf16_code_point, utf16_encode_cp, max_single_utf16_unit, char16_t.
  shifts. change (65536 `div` 1024) with 64.
  decide_tests; repeat f_equal; zarith.
Qed.

Lemma surrogate_pair_decode (cp : Z) :
  0x10000 <= cp <= 0x10FFFF ->
  let high := 0xD800 + (cp - 0x10000) / 1024 in
  let low := 0xDC00 + (cp - 0x10000) mod 1024 in
  is_high_surrogate high = true /\ is_low_surrogate low = true
  /\ surrogate_pair_to_code_point high low = cp.
Proof.
  intros Hcp high low. subst high low.
  unfold is_high_surrogate, is_low_surrogate, surrogate_pair_to_code_point.
  change SURROGATE_OFFSET with 4238353408. unfold char32_t. shifts.
  repeat split.
  - apply andb_true_intro. split; apply Z.leb_le; zarith.
  - apply andb_true_intro. split; apply Z.leb_le; zarith.
  - zarith.
Qed.

Lemma scalar_not_surrogate (cp : Z) :
  is_scalar cp -> is_high_surrogate cp = false /\ is_low_surrogate cp = false.
Proof.
  intros [Hr Hs]. unfold is_high_surrogate, is_low_surrogate.
  split; apply andb_false_iff; rewrite !Z.leb_gt; lia.
Qed.

Lemma is_scalarb_spec (cp : Z) : is_scalarb cp = true <-> is_scalar cp.
Proof.
  unfold is_scalarb, is_scalar.
  rewrite !andb_true_iff, negb_true_iff, andb_false_iff, !Z.leb_le, !Z.leb_gt.
  lia.
Qed.

Lemma Forall_is_scalar (cps : list Z) :
  forallb is_scalarb cps = true -> Forall is_scalar cps.
Proof.
  intros H. apply Forall_forall. intros cp Hin. apply is_scalarb_spec.
  rewrite forallb_forall in H. apply H, list_elem_of_In, Hin.
Qed.

(** *** Whole strings *)

Lemma utf8_encode_cp_length (cp : Z) : (1 <= length (utf8_encode_cp cp))%nat.
Proof.
  unfold utf8_encode_cp.
  destruct (cp <? 0x80), (cp <? 0x800), (cp <? 0x10000); simpl; lia.
Qed.

Lemma utf16_in_loop_nonempty fuel b from maxcode :
  utf16_in_loop (S fuel) (b :: from) maxcode
  = let '(codepoint, from') := read_utf8_code_point (b :: from) maxcode in
    if codepoint =? incomplete_mb_character then (partial, [])
    else if codepoint >? maxcode then (error, [])
    else
      let '(r, to) := utf16_in_loop fuel from' maxcode in
      (r, write_utf16_code_point codepoint ++ to).
Proof. reflexivity. Qed.

(** The loop never runs out of fuel: a code point that is accepted moves
    the input range forward, so fuel beyond the length of the input changes
    nothing. *)
Lemma read_utf8_code_point_progress (from from' : list byte) (cp : Z) :
  read_utf8_code_point from max_code_point = (cp, from') ->
  cp <= max_code_point ->
  (length from' < length from)%nat.
Proof.
  intros H Hle. unfold read_utf8_code_point in H.
  change incomplete_mb_character with 4294967294 in H.
  change invalid_mb_sequence with 4294967295 in H.
  unfold max_code_point in *.
  repeat match type of H with
  | context [match ?l with [] => _ | _ :: _ => _ end] => destruct l
  | context [if ?b then _ else _] => destruct b eqn:?
  end;
  injection H as <- <-; cbn [length]; lia.
Qed.

Lemma utf16_in_loop_fuel (n : nat) : forall (from : list byte) (fuel1 fuel2 : nat),
  (length from <= n)%nat -> (n <= fuel1)%nat -> (n <= fuel2)%nat ->
  utf16_in_loop fuel1 from max_code_point = utf16_in_loop fuel2 from max_code_point.
Proof.
  induction n as [|n IH]; intros from fuel1 fuel2 Hlen H1 H2.
  - destruct from; [|simpl in Hlen; lia]. destruct fuel1, fuel2; reflexivity.
  - destruct from as [|b from]; [destruct fuel1, fuel2; reflexivity|].
    destruct fuel1 as [|fuel1]; [lia|]. destruct fuel2 as [|fuel2]; [lia|].
    rewrite !utf16_in_loop_nonempty.
    destruct (read_utf8_code_point (b :: from) max_code_point) as [cp from'] eqn:E.
    destruct (cp =? incomplete_mb_character); [reflexivity|].
    rewrite Z.gtb_ltb. destruct (Z.ltb_spec max_code_point cp); [reflexivity|].
    pose proof (read_utf8_code_point_progress _ _ _ E ltac:(lia)) as Hp.
    rewrite (IH from' fuel1 fuel2) by lia. reflexivity.
Qed.

Lemma utf16_in_enough_fuel (from : list byte) (fuel : nat) :
  (length from <= fuel)%nat ->
  utf16_in_loop fuel from max_code_point = utf16_in from max_code_point.
Proof.
  intros H. unfold utf16_in. apply (utf16_in_loop_fuel (length from)); lia.
Qed.

(** Decoding well-formed text followed by anything: the text is converted
    and the loop carries on with what follows. *)
Lemma utf16_in_loop_app (cps : list Z) : forall (rest : list byte) (fuel : nat),
  Forall is_scalar cps ->
  (length (utf8_encode cps ++ rest) <= fuel)%nat ->
  exists fuel', (length rest <= fuel')%nat /\
    utf16_in_loop fuel (utf8_encode cps ++ rest) max_code_point
    = (fst (utf16_in_loop fuel' rest max_code_point),
       utf16_encode cps ++ snd (utf16_in_loop fuel' rest max_code_point)).
Proof.
  induction cps as [|cp cps IH]; intros rest fuel Hsc Hfuel.
  - exists fuel. split; [exact Hfuel|]. cbn [utf8_encode utf16_encode flat_map app].
    destruct (utf16_in_loop fuel rest max_code_point). reflexivity.
  - inversion Hsc as [|? ? [Hr Hs] Hsc']; subst.
    cbn [utf8_encode utf16_encode flat_map] in *.
    fold (utf8_encode cps) in *. fold (utf16_encode cps).
    rewrite <- app_assoc in *. rewrite length_app in Hfuel.
    pose proof (utf8_encode_cp_length cp) as Hlen.
    destruct fuel as [|fuel]; [lia|].
    destruct (IH rest fuel Hsc' ltac:(lia)) as (fuel' & Hf' & E).
    exists fuel'. split; [exact Hf'|].
    destruct (utf8_encode_cp cp ++ utf8_encode cps ++ rest) as [|b from] eqn:Efrom.
    { apply (f_equal (@length byte)) in Efrom. rewrite length_app in Efrom.
      simpl in Efrom. lia. }
    rewrite utf16_in_loop_nonempty, <- Efrom, read_utf8_code_point_encode by exact Hr.
    change incomplete_mb_character with 4294967294. unfold max_code_point in *.
    destruct (Z.eqb_spec cp 4294967294); [lia|].
    rewrite Z.gtb_ltb. destruct (Z.ltb_spec 1114111 cp); [lia|].
    rewrite E. cbn [fst snd].
    rewrite write_utf16_code_point_encode, <- app_assoc by exact Hr. reflexivity.
Qed.

Lemma utf16_in_valid (cps : list Z) :
  Forall is_scalar cps ->
  utf16_in (utf8_encode cps) max_code_point = (ok, utf16_encode cps).
Proof.
  intros Hsc. unfold utf16_in.
  destruct (utf16_in_loop_app cps [] (length (utf8_encode cps)) Hsc) as (f & _ & E).
  { rewrite app_nil_r. lia. }
  rewrite app_nil_r in E. rewrite E.
  destruct f; cbn; rewrite app_nil_r; reflexivity.
Qed.

(** Encoding UTF-16 text, whatever the width of the elements. *)
Lemma utf16_out_valid (bits : Z) (cps : list Z) :
  16 <= bits ->
  Forall is_scalar cps ->
  utf16_out bits (utf16_encode cps) max_code_point = (ok, utf8_encode cps).
Proof.
  intros Hbits. induction 1 as [|cp cps Hcp _ IH]; [reflexivity|].
  cbn [utf16_encode utf8_encode flat_map].
  fold (utf16_encode cps). fold (utf8_encode cps).
  pose proof (scalar_not_surrogate cp Hcp) as [Hh Hl].
  destruct Hcp as [Hr Hs].
  assert (H16 : 2 ^ 16 <= 2 ^ bits) by (apply Z.pow_le_mono_r; lia).
  change (2 ^ 16) with 65536 in H16.
  unfold utf16_encode_cp. destruct (Z.ltb_spec cp 0x10000) as [Hlt|Hge].
  - cbn [app utf16_out]. unfold elem. rewrite Z.mod_small by lia.
    rewrite Hh, Hl. unfold max_code_point in *. rewrite Z.gtb_ltb.
    destruct (Z.ltb_spec 1114111 cp); [lia|].
    rewrite write_utf8_code_point_encode, IH by exact Hr. reflexivity.
  - destruct (surrogate_pair_decode cp ltac:(lia)) as (Hhi & Hlo & Hdec).
    cbn [app utf16_out]. unfold elem.
    rewrite !Z.mod_small by zarith.
    cbv zeta in Hhi, Hlo, Hdec. rewrite Hhi, Hlo, Hdec.
    unfold max_code_point in *. rewrite Z.gtb_ltb.
    destruct (Z.ltb_spec 1114111 cp); [lia|].
    rewrite write_utf8_code_point_encode, IH by exact Hr. reflexivity.
Qed.

(** Encoding a string whose 32-bit elements are scalar values themselves. *)
Lemma utf16_out_scalars (cps : list Z) :
  Forall is_scalar cps ->
  utf16_out 32 cps max_code_point = (ok, utf8_encode cps).
Proof.
  induction 1 as [|cp cps Hcp _ IH]; [reflexivity|].
  cbn [utf16_out utf8_encode flat_map]. fold (utf8_encode cps).
  pose proof (scalar_not_surrogate cp Hcp) as [Hh Hl].
  destruct Hcp as [Hr Hs].
  unfold elem. rewrite Z.mod_small by lia. rewrite Hh, Hl.
  unfold max_code_point in *. rewrite Z.gtb_ltb.
  destruct (Z.ltb_spec 1114111 cp); [lia|].
  rewrite write_utf8_code_point_encode, IH by exact Hr. reflexivity.
Qed.

Lemma to_bytes_ok bits wstr out :
  utf16_out bits wstr max_code_point = (ok, out) -> to_bytes bits wstr = inl out.
Proof.
  intros E. unfold to_bytes. rewrite E.
  destruct wstr; [|reflexivity]. cbn in E. congruence.
Qed.

Lemma from_bytes_ok str out :
  utf16_in str max_code_point = (ok, out) -> from_bytes str = inl out.
Proof.
  intros E. unfold from_bytes. rewrite E.
  destruct str; [|reflexivity]. cbn in E. congruence.
Qed.

Lemma utf8ToUtf16_valid (cps : list Z) :
  Forall is_scalar cps -> utf8ToUtf16 (utf8_encode cps) = utf16_encode cps.
Proof.
  intros Hsc. unfold utf8ToUtf16.
  rewrite (from_bytes_ok _ _ (utf16_in_valid cps Hsc)). reflexivity.
Qed.

(** *** Rejected input *)

Lemma is_continuation_trail (b : byte) :
  is_continuation (uchar b) = true <-> is_trail b.
Proof.
  rewrite is_continuation_uchar, andb_true_iff, Z.leb_le, Z.ltb_lt.
  reflexivity.
Qed.

Lemma not_continuation (b : byte) :
  ~ is_trail b -> is_continuation (uchar b) = false.
Proof.
  intros H. apply not_true_is_false. rewrite is_continuation_trail. exact H.
Qed.

Lemma read_utf8_code_point_invalid (bad : list byte) :
  invalid_sequence bad ->
  fst (read_utf8_code_point bad max_code_point) = invalid_mb_sequence.
Proof.
  intros H. pose proof is_continuation_trail as Hc.
  destruct H as [b rest Hb | b1 b2 rest Hb1 Hb2 | b1 b2 b3 rest Hb1 Hbad
                 | b1 b2 b3 b4 rest Hb1 Hbad];
    cbn [read_utf8_code_point].
  - decide_tests; reflexivity.
  - rewrite (not_continuation b2 Hb2). decide_tests; reflexivity.
  - decide_tests;
      destruct (is_continuation (uchar b2)) eqn:E2; try reflexivity;
      cbn [negb andb];
      destruct (is_continuation (uchar b3)) eqn:E3; try reflexivity;
      exfalso; apply Hc in E2, E3; unfold is_trail in *; lia.
  - decide_tests;
      destruct (is_continuation (uchar b2)) eqn:E2; try reflexivity;
      cbn [negb andb];
      destruct (is_continuation (uchar b3)) eqn:E3; try reflexivity;
      cbn [negb andb];
      destruct (is_continuation (uchar b4)) eqn:E4; try reflexivity;
      exfalso; apply Hc in E2, E3, E4; unfold is_trail in *; lia.
Qed.

Lemma utf16_in_loop_invalid (bad : list byte) (fuel : nat) :
  invalid_sequence bad -> (length bad <= fuel)%nat ->
  fst (utf16_in_loop fuel bad max_code_point) = error.
Proof.
  intros Hbad Hfuel. pose proof (read_utf8_code_point_invalid bad Hbad) as Hr.
  destruct bad as [|b bad]; [inversion Hbad|].
  destruct fuel as [|fuel]; [simpl in Hfuel; lia|].
  rewrite utf16_in_loop_nonempty.
  destruct (read_utf8_code_point (b :: bad) max_code_point) as [c from'].
  cbn [fst] in Hr. subst c. reflexivity.
Qed.

Lemma utf16_in_rejects (cps : list Z) (bad : list byte) :
  Forall is_scalar cps -> invalid_sequence bad ->
  fst (utf16_in (utf8_encode cps ++ bad) max_code_point) = error.
Proof.
  intros Hsc Hbad. unfold utf16_in.
  destruct (utf16_in_loop_app cps bad _ Hsc (Nat.le_refl _)) as (f & Hf & E).
  rewrite E. cbn [fst]. apply utf16_in_loop_invalid; assumption.
Qed.

(** *** Claims about the converters *)

(** C1.  A [std::u32string] holding UTF-32 text, that is one Unicode scalar
    value per element (a supplementary-plane character such as U+1F600 is a
    single element), is converted by the 4-byte overload of [utf16ToUtf8] to
    the UTF-8 encoding of that text. *)
Theorem utf16ToUtf8_u32string_utf32 (cps : list Z) :
  Forall is_scalar cps ->
  utf16ToUtf8 (U32 cps) = utf8_encode cps.
Proof.
  intros Hsc. unfold utf16ToUtf8, utf16ToUtf8_u32string. cbn [units32].
  rewrite (to_bytes_ok _ _ _ (utf16_out_scalars cps Hsc)). reflexivity.
Qed.

Lemma utf16ToUtf8_u32string_utf32_witness :
  Forall is_scalar [0x61; 0x20AC; 0x1F600]
  /\ utf16ToUtf8 (U32 [0x61; 0x20AC; 0x1F600])
     = bytes [0x61; 0xE2; 0x82; 0xAC; 0xF0; 0x9F; 0x98; 0x80].
Proof.
  assert (H : Forall is_scalar [0x61; 0x20AC; 0x1F600]).
  { apply Forall_is_scalar. reflexivity. }
  split; [exact H|].
  rewrite (utf16ToUtf8_u32string_utf32 _ H). reflexivity.
Defined.

(** C2.  A narrow string that is valid UTF-8 (the encoding of any sequence
    of Unicode scalar values, supplementary planes included) survives
    [utf8ToUtf16] followed by the 2-byte overload of [utf16ToUtf8]
    unchanged. *)
Theorem utf8_utf16_round_trip (str : list byte) :
  valid_utf8 str ->
  utf16ToUtf8 (U16 (utf8ToUtf16 str)) = str.
Proof.
  intros (cps & Hsc & ->). rewrite (utf8ToUtf16_valid cps Hsc).
  unfold utf16ToUtf8, utf16ToUtf8_u16string. cbn [units16].
  rewrite (to_bytes_ok _ _ _ (utf16_out_valid 16 cps ltac:(lia) Hsc)).
  reflexivity.
Qed.

Lemma utf8_utf16_round_trip_witness :
  let str := bytes [0x61; 0xC3; 0xA9; 0xE2; 0x82; 0xAC; 0xF0; 0x9F; 0x98; 0x80] in
  valid_utf8 str /\ utf16ToUtf8 (U16 (utf8ToUtf16 str)) = str.
Proof.
  assert (H : valid_utf8
    (bytes [0x61; 0xC3; 0xA9; 0xE2; 0x82; 0xAC; 0xF0; 0x9F; 0x98; 0x80])).
  { exists [0x61; 0xE9; 0x20AC; 0x1F600]. split; [|reflexivity].
    apply Forall_is_scalar. reflexivity. }
  split; [exact H|]. apply (utf8_utf16_round_trip _ H).
Defined.

(** C3, as the specification states it, fails.  The buffer ["a\xC3"] ends
    inside a two-byte sequence, so it is not valid UTF-8; [utf8ToUtf16]
    nevertheless returns the unit converted before the truncated sequence
    instead of the empty string. *)
Lemma utf8ToUtf16_truncated_counterexample :
  ~ valid_utf8 (bytes [0x61; 0xC3])
  /\ utf8ToUtf16 (bytes [0x61; 0xC3]) = [0x61]
  /\ utf8ToUtf16 (bytes [0x61; 0xC3]) <> [].
Proof.
  split; [|split; [reflexivity | discriminate]].
  intros (cps & Hsc & Hstr).
  assert (Hp : fst (utf16_in (bytes [0x61; 0xC3]) max_code_point) = partial)
    by reflexivity.
  rewrite Hstr, (utf16_in_valid cps Hsc) in Hp. discriminate Hp.
Qed.

(** C3, amended.  When well-formed text is followed by a sequence that the
    decoder rejects (a byte that cannot start a sequence, such as a lone
    continuation byte [0x80]; a lead byte whose announced trail bytes are
    present but are not all continuation bytes; an overlong form; a value
    above U+10FFFF), whatever comes after it, [utf8ToUtf16] returns the
    empty string: nothing is raised and no converted prefix is returned. *)
Theorem utf8ToUtf16_rejected_empty (cps : list Z) (bad : list byte) :
  Forall is_scalar cps ->
  invalid_sequence bad ->
  utf8ToUtf16 (utf8_encode cps ++ bad) = [].
Proof.
  intros Hsc Hbad. pose proof (utf16_in_rejects cps bad Hsc Hbad) as Herr.
  unfold utf8ToUtf16, from_bytes.
  destruct (utf16_in (utf8_encode cps ++ bad) max_code_point) as [r to].
  cbn [fst] in Herr. subst r.
  destruct (utf8_encode cps ++ bad); reflexivity.
Qed.

Lemma utf8ToUtf16_rejected_empty_witness :
  Forall is_scalar [0x61; 0x1F600]
  /\ invalid_sequence (bytes [0x80; 0x62])
  /\ utf8ToUtf16 (bytes [0x61; 0xF0; 0x9F; 0x98; 0x80; 0x80; 0x62]) = [].
Proof.
  assert (H1 : Forall is_scalar [0x61; 0x1F600]).
  { apply Forall_is_scalar. reflexivity. }
  assert (H2 : invalid_sequence (bytes [0x80; 0x62])).
  { apply invalid_lead. left. vm_compute. split; [discriminate | reflexivity]. }
  split; [exact H1|]. split; [exact H2|].
  apply (utf8ToUtf16_rejected_empty _ _ H1 H2).
Defined.

(** *** Truncated input *)

Lemma read_utf8_code_point_incomplete (tail : list byte) :
  incomplete_sequence tail ->
  fst (read_utf8_code_point tail max_code_point) = incomplete_mb_character.
Proof.
  intros [b1 H1 | b1 b2 H1 | b1 b2 b3 H1]; cbn [read_utf8_code_point];
    decide_tests; reflexivity.
Qed.

Lemma utf16_in_loop_incomplete (tail : list byte) (fuel : nat) :
  incomplete_sequence tail -> (length tail <= fuel)%nat ->
  utf16_in_loop fuel tail max_code_point = (partial, []).
Proof.
  intros Htail Hfuel.
  pose proof (read_utf8_code_point_incomplete tail Htail) as Hr.
  destruct tail as [|b tail]; [inversion Htail|].
  destruct fuel as [|fuel]; [simpl in Hfuel; lia|].
  rewrite utf16_in_loop_nonempty.
  destruct (read_utf8_code_point (b :: tail) max_code_point) as [c from'].
  cbn [fst] in Hr. subst c. reflexivity.
Qed.

(** What the counterexample to C3 shows in general: when well-formed text
    is followed by the beginning of a multi-byte sequence that the buffer
    cuts short, the facet reports [partial], nothing is thrown, and
    [utf8ToUtf16] returns the conversion of the text. *)
Lemma utf8ToUtf16_incomplete_tail (cps : list Z) (tail : list byte) :
  Forall is_scalar cps ->
  incomplete_sequence tail ->
  utf8ToUtf16 (utf8_encode cps ++ tail) = utf16_encode cps.
Proof.
  intros Hsc Htail. unfold utf8ToUtf16, from_bytes, utf16_in.
  destruct (utf16_in_loop_app cps tail _ Hsc (Nat.le_refl _)) as (f & Hf & E).
  rewrite E, (utf16_in_loop_incomplete tail f Htail Hf). cbn [fst snd].
  rewrite app_nil_r.
  destruct (utf8_encode cps ++ tail) eqn:Es; [|reflexivity].
  apply app_eq_nil in Es as [_ ->]. inversion Htail.
Qed.

(** *** The converters on sample inputs *)

(** The reference encoder on the usual test vectors: U+0024, U+00A3,
    U+20AC, U+10348 and U+1F600. *)
Example utf8_encode_vectors :
  utf8_encode [0x24; 0xA3; 0x20AC; 0x10348; 0x1F600]
  = bytes [0x24; 0xC2; 0xA3; 0xE2; 0x82; 0xAC; 0xF0; 0x90; 0x8D; 0x88;
           0xF0; 0x9F; 0x98; 0x80].
Proof. reflexivity. Qed.

(** U+1F600 becomes a surrogate pair, and comes back. *)
Example utf8ToUtf16_supplementary :
  utf8ToUtf16 (bytes [0xF0; 0x9F; 0x98; 0x80]) = [0xD83D; 0xDE00]
  /\ utf16ToUtf8 (U16 [0xD83D; 0xDE00]) = bytes [0xF0; 0x9F; 0x98; 0x80].
Proof. split; reflexivity. Qed.

(** The 4-byte overload runs the UTF-16 facet on 32-bit elements: a
    surrogate pair stored in two elements is combined as well, and a lone
    low surrogate is an error. *)
Example utf16ToUtf8_u32string_surrogates :
  utf16ToUtf8 (U32 [0xD83D; 0xDE00]) = bytes [0xF0; 0x9F; 0x98; 0x80]
  /\ utf16ToUtf8 (U32 [0x61; 0xDE00]) = [].
Proof. split; reflexivity. Qed.

(** A lone continuation byte, alone or after text, empties the result. *)
Example utf8ToUtf16_lone_continuation :
  utf8ToUtf16 (bytes [0x80]) = []
  /\ utf8ToUtf16 (bytes [0x61; 0x62; 0x80]) = [].
Proof. split; reflexivity. Qed.

(** An encoded surrogate (not valid UTF-8 either) is let through. *)
Example utf8ToUtf16_encoded_surrogate :
  utf8ToUtf16 (bytes [0xED; 0xA0; 0x80]) = [0xD800].
Proof. reflexivity. Qed.

(** ** Byte order *)

Lemma isBigEndian_cases (e : endianness) :
  isBigEndian e = match e with BigEndian => true | _ => false end.
Proof. destruct e; reflexivity. Qed.

Lemma bswap16_swap_octets (v : Z) :
  0 <= v < 2 ^ 16 -> bswap16 v = swap_octets v.
Proof.
  intros Hv. unfold bswap16, swap_octets. change (2 ^ 16) with 65536 in Hv.
  change 0xFF with (Z.ones 8). rewrite !Z.land_ones by lia.
  rewrite Z.shiftr_div_pow2 by lia. change (2 ^ 8) with 256.
  rewrite (Z.mod_small (v / 256) 256) by zarith.
  rewrite <- Z.add_nocarry_lor.
  - rewrite Z.shiftl_mul_pow2 by lia. change (2 ^ 8) with 256. lia.
  - apply Z.bits_inj'. intros n Hn. rewrite Z.land_spec, Z.bits_0.
    destruct (Z.lt_ge_cases n 8) as [Hlt|Hge].
    + rewrite Z.shiftl_spec_low by lia. reflexivity.
    + replace (Z.testbit (v / 256) n) with false; [apply andb_false_r|].
      symmetry. destruct (Z.eq_dec (v / 256) 0) as [->|Hz]; [apply Z.bits_0|].
      apply Z.bits_above_log2; [zarith|].
      apply Z.lt_le_trans with 8; [|exact Hge].
      apply Z.log2_lt_pow2; [zarith|]. change (2 ^ 8) with 256. zarith.
Qed.

(** C6.  For a 16-bit value [v], [networkToHost] returns [v] on a
    big-endian platform and [v] with its two octets exchanged on any other;
    [0x1234] gives [0x3412] on a little-endian host and [0x1234] on a
    big-endian one. *)
Theorem networkToHost_spec (e : endianness) (v : Z) :
  0 <= v < 2 ^ 16 ->
  (e = BigEndian -> networkToHost e v = v)
  /\ (e <> BigEndian -> networkToHost e v = swap_octets v)
  /\ networkToHost LittleEndian 0x1234 = 0x3412
  /\ networkToHost BigEndian 0x1234 = 0x1234.
Proof.
  intros Hv. unfold networkToHost. rewrite isBigEndian_cases.
  split; [intros ->; reflexivity|].
  split; [|split; reflexivity].
  intros He. destruct e; [congruence| |]; apply bswap16_swap_octets, Hv.
Qed.

Lemma networkToHost_spec_witness :
  0 <= 0xBEEF < 2 ^ 16
  /\ (LittleEndian = BigEndian -> networkToHost LittleEndian 0xBEEF = 0xBEEF)
  /\ (LittleEndian <> BigEndian ->
      networkToHost LittleEndian 0xBEEF = swap_octets 0xBEEF)
  /\ networkToHost LittleEndian 0x1234 = 0x3412
  /\ networkToHost BigEndian 0x1234 = 0x1234.
Proof.
  split; [lia|]. apply (networkToHost_spec LittleEndian 0xBEEF). lia.
Defined.

(** C7.  [isBigEndian] is a function of the platform's byte order alone,
    and it is true exactly when the first octet in memory of the pattern
    [0x01020304] is its most significant octet, [0x01]; this is the case on
    a big-endian platform and on no other. *)
Theorem isBigEndian_spec (e : endianness) :
  (isBigEndian e = true <->
   nth 0 (object_repr e 0x01020304) 0 = octet 0x01020304 3)
  /\ octet 0x01020304 3 = 0x01
  /\ (isBigEndian e = true <-> e = BigEndian).
Proof.
  split; [|split; [reflexivity|]].
  - unfold isBigEndian, split. cbn [single]. rewrite Z.eqb_eq.
    change (octet 0x01020304 3) with 1. reflexivity.
  - rewrite isBigEndian_cases. destruct e; split; congruence.
Qed.

(** ** [sinCos] *)

Section SinCosFacts.

Import Fenv.

Variable float : Type.
Variables sin cos : float -> float.
Variable sincosf : float -> float * float * list fexcept.

Lemma feclearexcept_all (s : env) : flags (feclearexcept FE_ALL_EXCEPT s) = [].
Proof.
  unfold feclearexcept. cbn [flags]. induction (flags s) as [|a l IH]; [reflexivity|].
  cbn [List.filter]. destruct a; cbn; exact IH.
Qed.

Lemma filter_nil_iff {A} (f : A -> bool) (l : list A) :
  List.filter f l = [] <-> forall a, In a l -> f a = false.
Proof.
  induction l as [|x l IH]; cbn [List.filter].
  - split; [intros _ a []|reflexivity].
  - destruct (f x) eqn:E.
    + split; [discriminate|]. intros H. specialize (H x (or_introl eq_refl)).
      congruence.
    + rewrite IH. split.
      * intros H a [<-|Ha]; auto.
      * intros H a Ha. apply H. right. exact Ha.
Qed.

Lemma is_zero_nil (l : list fexcept) : is_zero l = true <-> l = [].
Proof. destruct l; cbn; split; intros H; congruence. Qed.

(** The flag of the non-Windows branch. *)
Lemma sinCos_flag (value : float) (s : env) :
  fst (fst (fst (sinCos float sin cos sincosf false value s))) = true
  <-> forall a, In a (snd (sincosf value)) ->
        a <> FE_INVALID /\ a <> FE_DIVBYZERO /\ a <> FE_OVERFLOW
        /\ a <> FE_UNDERFLOW.
Proof.
  unfold sinCos. destruct (sincosf value) as [[outSin outCos] raised].
  cbn [fst snd]. unfold fetestexcept, feraise. cbn [flags].
  rewrite feclearexcept_all. cbn [app].
  rewrite is_zero_nil, filter_nil_iff.
  split; intros H a Ha; specialize (H a Ha); destruct a; cbn in *;
    repeat split; congruence || tauto.
Qed.

End SinCosFacts.

(** C8.  Compiled without [OS_WINDOWS], [sinCos] returns [true] exactly when
    the evaluation of sine and cosine raises none of the invalid,
    divide-by-zero, overflow and underflow exceptions, whatever flags were
    pending in the environment before the call; compiled with [OS_WINDOWS],
    where the flags are not inspected, it always returns [true]. *)
Theorem sinCos_success_flag (float : Type) (sin cos : float -> float)
    (sincosf : float -> float * float * list Fenv.fexcept)
    (OS_WINDOWS : bool) (value : float) (s : Fenv.env) :
  let flag := fst (fst (fst (sinCos float sin cos sincosf OS_WINDOWS value s))) in
  (OS_WINDOWS = false ->
   (flag = true <->
    forall a, In a (snd (sincosf value)) ->
      a <> Fenv.FE_INVALID /\ a <> Fenv.FE_DIVBYZERO
      /\ a <> Fenv.FE_OVERFLOW /\ a <> Fenv.FE_UNDERFLOW))
  /\ (OS_WINDOWS = true -> flag = true).
Proof.
  cbv zeta. split; intros ->.
  - apply sinCos_flag.
  - reflexivity.
Qed.

Lemma sinCos_success_flag_witness :
  let sincosf := fun _ : Z => (0, 1, [Fenv.FE_INEXACT]) in
  let flag :=
    fst (fst (fst (sinCos Z id id sincosf false 0
                     (Fenv.mkEnv 7 [Fenv.FE_OVERFLOW])))) in
  flag = true.
Proof.
  cbv zeta.
  apply (proj1 (sinCos_success_flag Z id id (fun _ : Z => (0, 1, [Fenv.FE_INEXACT]))
                  false 0 (Fenv.mkEnv 7 [Fenv.FE_OVERFLOW])) eq_refl).
  intros a [<-|[]]. repeat split; discriminate.
Defined.

(** ** [readFile] *)

Import Ifstream.

Lemma readFile_loop_good (fuel : nat) : forall (data content : list byte) b,
  (length data < fuel)%nat ->
  readFile_loop fuel (mkIfstream data false false false b) content
  = content ++ data.
Proof.
  induction fuel as [|fuel IH]; intros data content b Hfuel; [lia|].
  cbn [readFile_loop good eofbit failbit badbit orb negb].
  unfold read. cbn [good eofbit failbit badbit orb negb unread].
  destruct (Nat.ltb_spec (length data) 256) as [Hshort|Hlong].
  - cbn [gcount last_count].
    destruct (Nat.ltb_spec 0 (length data)) as [Hpos|Hzero].
    + rewrite firstn_all. destruct fuel; reflexivity.
    + destruct data; [|simpl in Hzero; lia]. rewrite app_nil_r.
      destruct fuel; reflexivity.
  - cbn [gcount last_count Nat.ltb Nat.leb].
    rewrite take_take, Nat.min_id.
    rewrite IH by (rewrite length_drop; lia).
    rewrite <- app_assoc, take_drop. reflexivity.
Qed.

(** A file that can be opened is returned whole. *)
Lemma readFile_existing (fs : gmap string (list byte)) (path : string) data :
  fs !! path = Some data -> readFile fs path = data.
Proof.
  intros H. unfold readFile, open. rewrite H. cbn [unread].
  apply (readFile_loop_good _ data [] 0). lia.
Qed.

(** C9.  For a path that names no file that can be opened for reading,
    [readFile] returns the empty string: the stream never becomes good, the
    loop is not entered and nothing is raised. *)
Theorem readFile_missing (fs : gmap string (list byte)) (path : string) :
  fs !! path = None -> readFile fs path = [].
Proof.
  intros H. unfold readFile, open. rewrite H. reflexivity.
Qed.

Lemma readFile_missing_witness :
  let fs : gmap string (list byte) := {[ "plugin.dat"%string := bytes [1; 2; 3] ]} in
  fs !! "missing.dat"%string = None /\ readFile fs "missing.dat"%string = [].
Proof.
  cbv zeta. split; [reflexivity|]. apply readFile_missing. reflexivity.
Defined.

(* ================================================================== *)
(** * Further properties *)
(* ================================================================== *)

(** ** [escape] *)

Lemma strlen_insert_nul (l : list byte) : forall n : nat,
  (n < length l)%nat -> strlen (<[n := NUL]> l) = Nat.min (strlen l) n.
Proof.
  induction l as [|b l IH]; intros n Hn; [simpl in Hn; lia|].
  destruct n as [|n].
  - change (<[0%nat := NUL]> (b :: l)) with (NUL :: l). cbn [strlen].
    change (uchar NUL =? 0) with true. cbv iota. lia.
  - change (<[S n := NUL]> (b :: l)) with (b :: <[n := NUL]> l). cbn [strlen].
    destruct (uchar b =? 0); [reflexivity|].
    rewrite (IH n) by (simpl in Hn; lia). reflexivity.
Qed.

Lemma sanitize_clean_id (b : byte) : must_blank b = false -> sanitize b = b.
Proof. intros H. unfold sanitize. rewrite H. reflexivity. Qed.

(** X1.  Outside its contract [escape] is undefined: when [size] is 0 the
    first store is at offset [SIZE_MAX], and when [size] exceeds the extent
    of the object the first store is past its end. *)
Theorem escape_outside_contract (char_is_signed : bool) (fuel : nat)
    (str : list byte) (size : Z) :
  0 <= size < 2 ^ 64 ->
  Z.of_nat (length str) < 2 ^ 64 ->
  size = 0 \/ Z.of_nat (length str) < size ->
  run_escape char_is_signed fuel str size = Undefined.
Proof.
  intros Hs Hl Hout. unfold run_escape, escape.
  assert (Hst : store (size_t (size - 1)) (to_char 0) (mkState str [])
                = Undefined).
  { unfold store, in_bounds, size_t. cbn [mem].
    destruct Hout as [-> | Hbig].
    - change ((0 - 1) mod 2 ^ 64) with (2 ^ 64 - 1).
      destruct (Z.ltb_spec (2 ^ 64 - 1) (Z.of_nat (length str))); [lia|].
      rewrite andb_false_r. reflexivity.
    - rewrite Z.mod_small by lia.
      destruct (Z.ltb_spec (size - 1) (Z.of_nat (length str))); [lia|].
      rewrite andb_false_r. reflexivity. }
  unfold mbind, machine_bind, bind. rewrite Hst. reflexivity.
Qed.

Lemma escape_outside_contract_witness :
  run_escape true 8 example_buffer 0 = Undefined
  /\ run_escape true 16 example_buffer 9 = Undefined.
Proof.
  split.
  - apply (escape_outside_contract true 8 example_buffer 0);
      [lia | simpl; lia | left; reflexivity].
  - apply (escape_outside_contract true 16 example_buffer 9);
      [lia | simpl; lia | right; simpl; lia].
Defined.

(** X2.  [escape] leaves everything from the first [NUL] on as it was,
    except for the octet at [size - 1] that it clears: the octets after the
    terminator, and those beyond the declared capacity, are not touched. *)
Theorem escape_tail_untouched (char_is_signed : bool) (fuel : nat)
    (str : list byte) (size : Z) :
  valid_capacity str size ->
  (Z.to_nat size <= fuel)%nat ->
  exists str' tr,
    run_escape char_is_signed fuel str size = Done (str', tr)
    /\ forall i : nat,
         (strlen str' <= i)%nat -> i <> Z.to_nat (size - 1) ->
         str' !! i = str !! i.
Proof.
  intros Hcap Hfuel.
  destruct (run_escape_spec str size Hcap char_is_signed fuel Hfuel)
    as (tr & Hrun & _).
  exists (escaped str size), tr. split; [exact Hrun|].
  intros i Hi Hne. rewrite (escaped_strlen str size Hcap) in Hi.
  rewrite (escaped_lookup_ge str size i Hi).
  apply list_lookup_insert_ne. congruence.
Qed.

Lemma escape_tail_untouched_witness :
  let str := bytes [0x22; 0x00; 0x22; 0x01; 0x41; 0x22] in
  valid_capacity str 4
  /\ exists str' tr,
       run_escape false 4 str 4 = Done (str', tr)
       /\ forall i : nat,
            (strlen str' <= i)%nat -> i <> Z.to_nat (4 - 1) ->
            str' !! i = str !! i.
Proof.
  cbv zeta.
  assert (H : valid_capacity (bytes [0x22; 0x00; 0x22; 0x01; 0x41; 0x22]) 4).
  { unfold valid_capacity. simpl. lia. }
  split; [exact H|].
  apply (escape_tail_untouched false 4 _ 4 H). simpl. lia.
Defined.

(** X3.  What is left in the buffer is a C string that fits the capacity
    and is printable: its length is below [size], and each of its
    characters lies in 32..126 and is not a double quote. *)
Theorem escape_result_printable (char_is_signed : bool) (fuel : nat)
    (str : list byte) (size : Z) :
  valid_capacity str size ->
  (Z.to_nat size <= fuel)%nat ->
  exists str' tr,
    run_escape char_is_signed fuel str size = Done (str', tr)
    /\ Z.of_nat (strlen str') < size
    /\ Forall (fun b => 32 <= uchar b <= 126 /\ uchar b <> 34)
         (take (strlen str') str').
Proof.
  intros Hcap Hfuel.
  destruct (run_escape_spec str size Hcap char_is_signed fuel Hfuel)
    as (tr & Hrun & _).
  exists (escaped str size), tr. split; [exact Hrun|].
  rewrite (escaped_strlen str size Hcap). split.
  - pose proof (forced_strlen str size Hcap) as Hk. cbv zeta in Hk.
    destruct Hcap as [Hs _]. lia.
  - rewrite (escaped_take str size). apply Forall_fmap, Forall_forall.
    intros b _. cbn. pose proof (sanitize_clean b) as Hc.
    pose proof (must_blank_spec (sanitize b)) as Hspec.
    destruct (Z.eq_dec (uchar (sanitize b)) 34) as [E|E];
      [rewrite Hc in Hspec; exfalso; apply diff_false_true, Hspec; auto|].
    split; [|exact E].
    destruct (Z_le_dec 32 (uchar (sanitize b))) as [H1|H1];
      [destruct (Z_le_dec (uchar (sanitize b)) 126) as [H2|H2]; [lia|]|];
      rewrite Hc in Hspec; exfalso; apply diff_false_true, Hspec; right; lia.
Qed.

Lemma escape_result_printable_witness :
  valid_capacity example_buffer 8
  /\ exists str' tr,
       run_escape true 8 example_buffer 8 = Done (str', tr)
       /\ Z.of_nat (strlen str') < 8
       /\ Forall (fun b => 32 <= uchar b <= 126 /\ uchar b <> 34)
            (take (strlen str') str').
Proof.
  split; [exact example_buffer_capacity|].
  apply (escape_result_printable true 8 example_buffer 8 example_buffer_capacity).
  simpl. lia.
Defined.

(** X4.  [escape] never lengthens the string and cuts it at the capacity:
    the string it leaves has the length of the string it was given, or
    [size - 1] if that is less. *)
Theorem escape_truncates (char_is_signed : bool) (fuel : nat)
    (str : list byte) (size : Z) :
  valid_capacity str size ->
  (Z.to_nat size <= fuel)%nat ->
  exists str' tr,
    run_escape char_is_signed fuel str size = Done (str', tr)
    /\ strlen str' = Nat.min (strlen str) (Z.to_nat (size - 1)).
Proof.
  intros Hcap Hfuel.
  destruct (run_escape_spec str size Hcap char_is_signed fuel Hfuel)
    as (tr & Hrun & _).
  exists (escaped str size), tr. split; [exact Hrun|].
  rewrite (escaped_strlen str size Hcap).
  apply strlen_insert_nul. apply (last_lt str size Hcap).
Qed.

Lemma escape_truncates_witness :
  valid_capacity example_buffer 4
  /\ exists str' tr,
       run_escape true 4 example_buffer 4 = Done (str', tr)
       /\ strlen str' = Nat.min (strlen example_buffer) (Z.to_nat (4 - 1)).
Proof.
  assert (H : valid_capacity example_buffer 4).
  { unfold valid_capacity. simpl. lia. }
  split; [exact H|].
  apply (escape_truncates true 4 example_buffer 4 H). simpl. lia.
Defined.

(** X5.  A buffer that already holds a terminated, printable, quote-free
    string is returned exactly as it was. *)
Theorem escape_clean_unchanged (char_is_signed : bool) (fuel : nat)
    (str : list byte) (size : Z) :
  valid_capacity str size ->
  (Z.to_nat size <= fuel)%nat ->
  str !! Z.to_nat (size - 1) = Some NUL ->
  Forall (fun b => 32 <= uchar b <= 126 /\ uchar b <> 34)
    (take (strlen str) str) ->
  exists tr, run_escape char_is_signed fuel str size = Done (str, tr).
Proof.
  intros Hcap Hfuel Hnul Hclean.
  destruct (run_escape_spec str size Hcap char_is_signed fuel Hfuel)
    as (tr & Hrun & _).
  exists tr. rewrite Hrun. do 2 f_equal.
  assert (Hid : sanitize <$> take (strlen str) str = take (strlen str) str).
  { rewrite <- (list_fmap_id (take (strlen str) str)) at 2.
    apply Forall_fmap_ext_1. eapply Forall_impl; [exact Hclean|].
    intros b [Hr Hq]. apply sanitize_clean_id.
    apply not_true_is_false. rewrite must_blank_spec. unfold id. lia. }
  unfold escaped. rewrite (list_insert_id _ _ _ Hnul). cbv zeta.
  rewrite Hid. apply take_drop.
Qed.

Lemma escape_clean_unchanged_witness :
  let str := bytes [0x6D; 0x75; 0x6D; 0x62; 0x6C; 0x65; 0x00; 0x00] in
  exists tr, run_escape true 8 str 8 = Done (str, tr).
Proof.
  cbv zeta.
  apply (escape_clean_unchanged true 8
           (bytes [0x6D; 0x75; 0x6D; 0x62; 0x6C; 0x65; 0x00; 0x00]) 8).
  - unfold valid_capacity. simpl. lia.
  - simpl. lia.
  - reflexivity.
  - repeat constructor; vm_compute; congruence.
Defined.

(** X6.  The buffer [escape] produces does not depend on whether plain
    [char] is signed: a build with signed [char] and one with unsigned
    [char] leave the same octets. *)
Theorem escape_signedness_irrelevant (fuel : nat) (str : list byte) (size : Z) :
  valid_capacity str size ->
  (Z.to_nat size <= fuel)%nat ->
  exists str' tr1 tr2,
    run_escape true fuel str size = Done (str', tr1)
    /\ run_escape false fuel str size = Done (str', tr2).
Proof.
  intros Hcap Hfuel.
  destruct (run_escape_spec str size Hcap true fuel Hfuel) as (tr1 & H1 & _).
  destruct (run_escape_spec str size Hcap false fuel Hfuel) as (tr2 & H2 & _).
  exists (escaped str size), tr1, tr2. split; assumption.
Qed.

Lemma escape_signedness_irrelevant_witness :
  let str := bytes [0xC3; 0xA9; 0x7F; 0x41; 0xFF; 0x00] in
  valid_capacity str 6
  /\ exists str' tr1 tr2,
       run_escape true 6 str 6 = Done (str', tr1)
       /\ run_escape false 6 str 6 = Done (str', tr2).
Proof.
  cbv zeta.
  assert (H : valid_capacity (bytes [0xC3; 0xA9; 0x7F; 0x41; 0xFF; 0x00]) 6).
  { unfold valid_capacity. simpl. lia. }
  split; [exact H|].
  apply (escape_signedness_irrelevant 6 _ 6 H). simpl. lia.
Defined.

(** ** Text transcoding *)

Lemma list_ind2 {A} (P : list A -> Prop) :
  P [] -> (forall x, P [x]) ->
  (forall x y l, P l -> P (y :: l) -> P (x :: y :: l)) ->
  forall l, P l.
Proof.
  intros H0 H1 H2 l.
  enough (H : P l /\ forall x, P (x :: l)) by apply H.
  induction l as [|y l [IH1 IH2]]; split; auto.
Qed.

(** One turn of the encoder's loop. *)
Lemma utf16_out_cons (bits : Z) (u : Z) (from1 : list Z) (maxcode : Z) :
  utf16_out bits (u :: from1) maxcode
  = let c := elem bits u in
    if is_high_surrogate c then
      match from1 with
      | [] => (ok, [])
      | u2 :: from2 =>
        let c2 := elem bits u2 in
        if is_low_surrogate c2 then
          let c := surrogate_pair_to_code_point c c2 in
          if c >? maxcode then (error, [])
          else
            match write_utf8_code_point c with
            | None => (partial, [])
            | Some bs =>
              let '(r, to) := utf16_out bits from2 maxcode in (r, bs ++ to)
            end
        else (error, [])
      end
    else if is_low_surrogate c then (error, [])
    else if c >? maxcode then (error, [])
    else
      match write_utf8_code_point c with
      | None => (partial, [])
      | Some bs =>
        let '(r, to) := utf16_out bits from1 maxcode in (r, bs ++ to)
      end.
Proof. destruct from1; reflexivity. Qed.

(** Encoding well-formed UTF-16 followed by anything. *)
Lemma utf16_out_app (bits : Z) (cps : list Z) (rest : list Z) :
  16 <= bits ->
  Forall is_scalar cps ->
  utf16_out bits (utf16_encode cps ++ rest) max_code_point
  = (fst (utf16_out bits rest max_code_point),
     utf8_encode cps ++ snd (utf16_out bits rest max_code_point)).
Proof.
  intros Hbits. induction 1 as [|cp cps Hcp _ IH].
  { cbn [utf16_encode utf8_encode flat_map app].
    destruct (utf16_out bits rest max_code_point). reflexivity. }
  cbn [utf16_encode utf8_encode flat_map].
  fold (utf16_encode cps). fold (utf8_encode cps).
  pose proof (scalar_not_surrogate cp Hcp) as [Hh Hl].
  destruct Hcp as [Hr Hs].
  assert (H16 : 2 ^ 16 <= 2 ^ bits) by (apply Z.pow_le_mono_r; lia).
  change (2 ^ 16) with 65536 in H16.
  rewrite <- !app_assoc.
  unfold utf16_encode_cp. destruct (Z.ltb_spec cp 0x10000) as [Hlt|Hge].
  - cbn [app]. rewrite utf16_out_cons. cbv zeta.
    unfold elem. rewrite Z.mod_small by lia.
    rewrite Hh, Hl. unfold max_code_point in *. rewrite Z.gtb_ltb.
    destruct (Z.ltb_spec 1114111 cp); [lia|].
    rewrite write_utf8_code_point_encode, IH by exact Hr. reflexivity.
  - destruct (surrogate_pair_decode cp ltac:(lia)) as (Hhi & Hlo & Hdec).
    cbn [app]. rewrite utf16_out_cons. cbv zeta.
    unfold elem. rewrite !Z.mod_small by zarith.
    cbv zeta in Hhi, Hlo, Hdec. rewrite Hhi, Hlo, Hdec.
    unfold max_code_point in *. rewrite Z.gtb_ltb.
    destruct (Z.ltb_spec 1114111 cp); [lia|].
    rewrite write_utf8_code_point_encode, IH by exact Hr. reflexivity.
Qed.


Lemma to_bytes_result (bits : Z) (wstr : list Z) r out :
  utf16_out bits wstr max_code_point = (r, out) ->
  to_bytes bits wstr
  = if result_eqb r error then inr range_error
    else inl (match wstr with [] => [] | _ => out end).
Proof.
  intros E. unfold to_bytes. rewrite E. destruct wstr; [|reflexivity].
  cbn in E. injection E as <- <-. reflexivity.
Qed.

Lemma surrogate_pair_range (high low : Z) :
  is_high_surrogate high = true -> is_low_surrogate low = true ->
  0x10000 <= surrogate_pair_to_code_point high low <= 0x10FFFF.
Proof.
  unfold is_high_surrogate, is_low_surrogate, surrogate_pair_to_code_point.
  rewrite !andb_true_iff, !Z.leb_le. intros [H1 H2] [L1 L2].
  change SURROGATE_OFFSET with 4238353408. unfold char32_t. shifts.
  zarith.
Qed.

Lemma write_utf8_code_point_length (c : Z) (bs : list byte) :
  write_utf8_code_point c = Some bs ->
  (length bs <= 4)%nat /\ (c <= 0xFFFF -> (length bs <= 3)%nat).
Proof.
  unfold write_utf8_code_point.
  destruct (Z.ltb_spec c 0x80); [|destruct (Z.leb_spec c 0x7FF);
    [|destruct (Z.leb_spec c 0xFFFF); [|destruct (Z.leb_spec c 0x10FFFF)]]];
    intros [= <-]; cbn [length]; lia.
Qed.

(** X7.  On valid UTF-8, [utf8ToUtf16] produces the UTF-16 encoding of the
    text: one unit for a character up to U+FFFF and a surrogate pair for a
    character above. *)
Theorem utf8ToUtf16_is_utf16 (cps : list Z) :
  Forall is_scalar cps ->
  utf8ToUtf16 (utf8_encode cps) = utf16_encode cps.
Proof.
  intros Hsc. unfold utf8ToUtf16.
  rewrite (from_bytes_ok _ _ (utf16_in_valid cps Hsc)). reflexivity.
Qed.

Lemma utf8ToUtf16_is_utf16_witness :
  Forall is_scalar [0x41; 0x3A9; 0x1F600]
  /\ utf8ToUtf16 (bytes [0x41; 0xCE; 0xA9; 0xF0; 0x9F; 0x98; 0x80])
     = [0x41; 0x3A9; 0xD83D; 0xDE00].
Proof.
  assert (H : Forall is_scalar [0x41; 0x3A9; 0x1F600])
    by (apply Forall_is_scalar; reflexivity).
  split; [exact H|]. apply (utf8ToUtf16_is_utf16 _ H).
Defined.

(** X8.  On well-formed UTF-16, each overload of [utf16ToUtf8] produces the
    UTF-8 encoding of the text; the 4-byte overload thus also accepts
    surrogate pairs held in 32-bit elements. *)
Theorem utf16ToUtf8_is_utf8 (cps : list Z) :
  Forall is_scalar cps ->
  utf16ToUtf8 (U16 (utf16_encode cps)) = utf8_encode cps
  /\ utf16ToUtf8 (U32 (utf16_encode cps)) = utf8_encode cps.
Proof.
  intros Hsc.
  unfold utf16ToUtf8, utf16ToUtf8_u16string, utf16ToUtf8_u32string.
  cbn [units16 units32].
  rewrite (to_bytes_ok _ _ _ (utf16_out_valid 16 cps ltac:(lia) Hsc)).
  rewrite (to_bytes_ok _ _ _ (utf16_out_valid 32 cps ltac:(lia) Hsc)).
  split; reflexivity.
Qed.

Lemma utf16ToUtf8_is_utf8_witness :
  Forall is_scalar [0x41; 0x3A9; 0x1F600]
  /\ utf16ToUtf8 (U16 [0x41; 0x3A9; 0xD83D; 0xDE00])
     = bytes [0x41; 0xCE; 0xA9; 0xF0; 0x9F; 0x98; 0x80]
  /\ utf16ToUtf8 (U32 [0x41; 0x3A9; 0xD83D; 0xDE00])
     = bytes [0x41; 0xCE; 0xA9; 0xF0; 0x9F; 0x98; 0x80].
Proof.
  assert (H : Forall is_scalar [0x41; 0x3A9; 0x1F600])
    by (apply Forall_is_scalar; reflexivity).
  split; [exact H|]. apply (utf16ToUtf8_is_utf8 _ H).
Defined.

(** X9.  The round trip in the other direction: well-formed UTF-16 survives
    the 2-byte overload of [utf16ToUtf8] followed by [utf8ToUtf16]. *)
Theorem utf16_utf8_round_trip (cps : list Z) :
  Forall is_scalar cps ->
  utf8ToUtf16 (utf16ToUtf8 (U16 (utf16_encode cps))) = utf16_encode cps.
Proof.
  intros Hsc. unfold utf16ToUtf8, utf16ToUtf8_u16string. cbn [units16].
  rewrite (to_bytes_ok _ _ _ (utf16_out_valid 16 cps ltac:(lia) Hsc)).
  unfold utf8ToUtf16.
  rewrite (from_bytes_ok _ _ (utf16_in_valid cps Hsc)). reflexivity.
Qed.

Lemma utf16_utf8_round_trip_witness :
  Forall is_scalar [0x7A; 0x6C34; 0x10348]
  /\ utf8ToUtf16 (utf16ToUtf8 (U16 [0x7A; 0x6C34; 0xD800; 0xDF48]))
     = [0x7A; 0x6C34; 0xD800; 0xDF48].
Proof.
  assert (H : Forall is_scalar [0x7A; 0x6C34; 0x10348])
    by (apply Forall_is_scalar; reflexivity).
  split; [exact H|]. apply (utf16_utf8_round_trip _ H).
Defined.

(** X10.  The two overloads of [utf16ToUtf8] agree on every string whose
    elements fit 16 bits: a [std::u16string] and the [std::u32string] with
    the same elements are converted to the same result, well-formed or
    not. *)
Theorem utf16ToUtf8_overloads_agree (str : u16string) :
  Forall (fun u => 0 <= u < 2 ^ 16) (units16 str) ->
  utf16ToUtf8 (U32 (units16 str)) = utf16ToUtf8 str.
Proof.
  destruct str as [l]. cbn [units16]. intros Hl.
  enough (E : utf16_out 32 l max_code_point = utf16_out 16 l max_code_point).
  { unfold utf16ToUtf8, utf16ToUtf8_u16string, utf16ToUtf8_u32string, to_bytes.
    cbn [units16 units32]. rewrite E. reflexivity. }
  assert (He : forall u, 0 <= u < 2 ^ 16 -> elem 32 u = u /\ elem 16 u = u).
  { intros u Hu. unfold elem. change (2 ^ 16) with 65536 in Hu.
    split; apply Z.mod_small; change (2 ^ 32) with 4294967296;
      change (2 ^ 16) with 65536; lia. }
  revert Hl. induction l as [| x | x y l IH1 IH2] using list_ind2; intros Hl.
  - reflexivity.
  - inversion Hl as [|? ? Hx _]; subst. destruct (He x Hx) as [E32 E16].
    rewrite !utf16_out_cons. cbv zeta. rewrite E32, E16. reflexivity.
  - inversion Hl as [|? ? Hx Hl']; subst.
    inversion Hl' as [|? ? Hy Hl'']; subst.
    destruct (He x Hx) as [E32 E16]. destruct (He y Hy) as [F32 F16].
    rewrite (utf16_out_cons 32 x), (utf16_out_cons 16 x). cbv zeta.
    rewrite E32, E16, F32, F16, (IH1 Hl''), (IH2 Hl'). reflexivity.
Qed.

Lemma utf16ToUtf8_overloads_agree_witness :
  Forall (fun u => 0 <= u < 2 ^ 16) [0x61; 0xD83D; 0xDE00; 0xDC00]
  /\ utf16ToUtf8 (U32 [0x61; 0xD83D; 0xDE00; 0xDC00])
     = utf16ToUtf8 (U16 [0x61; 0xD83D; 0xDE00; 0xDC00]).
Proof.
  assert (H : Forall (fun u => 0 <= u < 2 ^ 16) [0x61; 0xD83D; 0xDE00; 0xDC00])
    by (repeat constructor; lia).
  split; [exact H|].
  apply (utf16ToUtf8_overloads_agree (U16 [0x61; 0xD83D; 0xDE00; 0xDC00]) H).
Defined.

(** X11.  Ill-formed UTF-16 empties the result of [utf16ToUtf8]: when
    well-formed text is followed by a low surrogate that no high surrogate
    precedes, or by a high surrogate whose next unit is not a low
    surrogate, the empty string is returned, whatever comes after. *)
Theorem utf16ToUtf8_rejected_empty (cps : list Z) (bad : list Z) :
  Forall is_scalar cps ->
  invalid_utf16 bad ->
  utf16ToUtf8 (U16 (utf16_encode cps ++ bad)) = [].
Proof.
  intros Hsc Hbad.
  assert (Herr : fst (utf16_out 16 bad max_code_point) = error).
  { destruct Hbad as [u rest Hu | u u2 rest Hu Hr Hn]; rewrite utf16_out_cons;
      cbv zeta; unfold elem; change (2 ^ 16) with 65536 in *;
      rewrite ?Z.mod_small by lia;
      unfold is_high_surrogate, is_low_surrogate; decide_tests; reflexivity. }
  unfold utf16ToUtf8, utf16ToUtf8_u16string. cbn [units16].
  pose proof (utf16_out_app 16 cps bad ltac:(lia) Hsc) as E.
  rewrite Herr in E. rewrite (to_bytes_result _ _ _ _ E). reflexivity.
Qed.

Lemma utf16ToUtf8_rejected_empty_witness :
  Forall is_scalar [0x61; 0x1F600]
  /\ invalid_utf16 [0xD83D; 0x62; 0x63]
  /\ utf16ToUtf8 (U16 [0x61; 0xD83D; 0xDE00; 0xD83D; 0x62; 0x63]) = [].
Proof.
  assert (H1 : Forall is_scalar [0x61; 0x1F600])
    by (apply Forall_is_scalar; reflexivity).
  assert (H2 : invalid_utf16 [0xD83D; 0x62; 0x63])
    by (apply unpaired_high_surrogate; lia).
  split; [exact H1|]. split; [exact H2|].
  apply (utf16ToUtf8_rejected_empty _ _ H1 H2).
Defined.

(** X12.  A high surrogate that ends the string is not an error: it is
    dropped, and [utf16ToUtf8] returns the conversion of what precedes. *)
Theorem utf16ToUtf8_dangling_high_surrogate (cps : list Z) (high : Z) :
  Forall is_scalar cps ->
  0xD800 <= high <= 0xDBFF ->
  utf16ToUtf8 (U16 (utf16_encode cps ++ [high])) = utf8_encode cps.
Proof.
  intros Hsc Hhigh.
  assert (Hok : utf16_out 16 [high] max_code_point = (ok, [])).
  { rewrite utf16_out_cons. cbv zeta. unfold elem.
    change (2 ^ 16) with 65536. rewrite Z.mod_small by lia.
    unfold is_high_surrogate. decide_tests; reflexivity. }
  unfold utf16ToUtf8, utf16ToUtf8_u16string. cbn [units16].
  pose proof (utf16_out_app 16 cps [high] ltac:(lia) Hsc) as E.
  rewrite Hok in E. cbn [fst snd] in E. rewrite app_nil_r in E.
  rewrite (to_bytes_result _ _ _ _ E). cbn [result_eqb].
  destruct (utf16_encode cps ++ [high]) eqn:Es; [|reflexivity].
  apply app_eq_nil in Es as [_ Es]. discriminate Es.
Qed.

Lemma utf16ToUtf8_dangling_high_surrogate_witness :
  Forall is_scalar [0x61; 0x62]
  /\ 0xD800 <= 0xD83D <= 0xDBFF
  /\ utf16ToUtf8 (U16 [0x61; 0x62; 0xD83D]) = bytes [0x61; 0x62].
Proof.
  assert (H1 : Forall is_scalar [0x61; 0x62])
    by (apply Forall_is_scalar; reflexivity).
  split; [exact H1|]. split; [lia|].
  apply (utf16ToUtf8_dangling_high_surrogate _ 0xD83D H1). lia.
Defined.



Lemma utf8_encode_cp_cut (cp : Z) (n : nat) :
  0 <= cp <= 0x10FFFF ->
  (0 < n < length (utf8_encode_cp cp))%nat ->
  incomplete_sequence (take n (utf8_encode_cp cp)).
Proof.
  intros Hcp Hn. unfold utf8_encode_cp in *.
  destruct (Z.ltb_spec cp 0x80); [simpl in Hn; lia|].
  destruct (Z.ltb_spec cp 0x800); [|destruct (Z.ltb_spec cp 0x10000)];
    cbn [length] in Hn;
    (destruct n as [|[|[|[|n]]]]; try lia); cbn [take];
    constructor; rewrite uchar_to_char_small by zarith; zarith.
Qed.

(** X14.  Valid UTF-8 that is cut inside the encoding of a character loses
    that character silently: [utf8ToUtf16] returns the conversion of the
    characters before it, and not the empty string. *)
Theorem utf8ToUtf16_cut_character (cps : list Z) (cp : Z) (n : nat) :
  Forall is_scalar cps ->
  is_scalar cp ->
  (0 < n < length (utf8_encode_cp cp))%nat ->
  utf8ToUtf16 (utf8_encode cps ++ take n (utf8_encode_cp cp))
  = utf16_encode cps.
Proof.
  intros Hsc [Hcp _] Hn.
  pose proof (utf8_encode_cp_cut cp n Hcp Hn) as Htail.
  unfold utf8ToUtf16, from_bytes, utf16_in.
  destruct (utf16_in_loop_app cps (take n (utf8_encode_cp cp)) _ Hsc
              (Nat.le_refl _)) as (f & Hf & E).
  rewrite E, (utf16_in_loop_incomplete _ f Htail Hf). cbn [fst snd].
  rewrite app_nil_r.
  destruct (utf8_encode cps ++ take n (utf8_encode_cp cp)) eqn:Es;
    [|reflexivity].
  apply app_eq_nil in Es as [_ Es]. rewrite Es in Htail. inversion Htail.
Qed.

Lemma utf8ToUtf16_cut_character_witness :
  Forall is_scalar [0x61; 0xE9]
  /\ is_scalar 0x1F600
  /\ (0 < 3 < length (utf8_encode_cp 0x1F600))%nat
  /\ utf8ToUtf16 (bytes [0x61; 0xC3; 0xA9; 0xF0; 0x9F; 0x98]) = [0x61; 0xE9].
Proof.
  assert (H1 : Forall is_scalar [0x61; 0xE9])
    by (apply Forall_is_scalar; reflexivity).
  assert (H2 : is_scalar 0x1F600) by (apply is_scalarb_spec; reflexivity).
  assert (H3 : (0 < 3 < length (utf8_encode_cp 0x1F600))%nat) by (simpl; lia).
  split; [exact H1|]. split; [exact H2|]. split; [exact H3|].
  apply (utf8ToUtf16_cut_character _ 0x1F600 3 H1 H2 H3).
Defined.

Lemma utf16_in_loop_ascii (str : list byte) : forall fuel : nat,
  Forall (fun b => uchar b < 0x80) str ->
  (length str <= fuel)%nat ->
  utf16_in_loop fuel str max_code_point = (ok, uchar <$> str).
Proof.
  induction str as [|b str IH]; intros fuel Hascii Hfuel.
  - destruct fuel; reflexivity.
  - inversion Hascii as [|? ? Hb Hascii']; subst.
    destruct fuel as [|fuel]; [simpl in Hfuel; lia|].
    rewrite utf16_in_loop_nonempty. cbn [read_utf8_code_point].
    pose proof (uchar_range b) as Hr.
    destruct (Z.ltb_spec (uchar b) 0x80); [|lia]. cbv beta iota zeta.
    rewrite (IH fuel Hascii') by (simpl in Hfuel; lia).
    change incomplete_mb_character with 4294967294. unfold max_code_point.
    destruct (Z.eqb_spec (uchar b) 4294967294); [lia|].
    rewrite Z.gtb_ltb. destruct (Z.ltb_spec 1114111 (uchar b)); [lia|].
    unfold write_utf16_code_point, max_single_utf16_unit, char16_t.
    destruct (Z.leb_spec (uchar b) 0xFFFF); [|lia].
    change (2 ^ 16) with 65536. rewrite Z.mod_small by lia. reflexivity.
Qed.

(** X15.  Text in 7-bit ASCII, [NUL] characters included, is converted
    unit for unit in both directions. *)
Theorem ascii_unit_for_unit (str : list byte) :
  Forall (fun b => uchar b < 0x80) str ->
  utf8ToUtf16 str = uchar <$> str
  /\ utf16ToUtf8 (U16 (uchar <$> str)) = str.
Proof.
  intros Hascii.
  assert (Hin : utf8ToUtf16 str = uchar <$> str).
  { unfold utf8ToUtf16, from_bytes, utf16_in.
    rewrite (utf16_in_loop_ascii str _ Hascii (Nat.le_refl _)).
    destruct str; reflexivity. }
  split; [exact Hin|].
  assert (Hsc : Forall is_scalar (uchar <$> str)).
  { apply Forall_fmap. eapply Forall_impl; [exact Hascii|].
    intros b Hb. pose proof (uchar_range b). unfold is_scalar. cbn. lia. }
  assert (He8 : utf8_encode (uchar <$> str) = str).
  { clear Hin Hsc. induction Hascii as [|b l Hb _ IH]; [reflexivity|].
    cbn [fmap list_fmap utf8_encode flat_map]. fold (utf8_encode (uchar <$> l)).
    rewrite IH. unfold utf8_encode_cp.
    destruct (Z.ltb_spec (uchar b) 0x80); [|lia].
    rewrite to_char_uchar. reflexivity. }
  assert (He16 : utf16_encode (uchar <$> str) = uchar <$> str).
  { clear Hin Hsc He8. induction Hascii as [|b l Hb _ IH]; [reflexivity|].
    cbn [fmap list_fmap utf16_encode flat_map].
    fold (utf16_encode (uchar <$> l)). rewrite IH. unfold utf16_encode_cp.
    destruct (Z.ltb_spec (uchar b) 0x10000); [reflexivity|lia]. }
  unfold utf16ToUtf8, utf16ToUtf8_u16string. cbn [units16].
  pose proof (utf16_out_valid 16 _ ltac:(lia) Hsc) as E.
  rewrite He16, He8 in E. rewrite (to_bytes_ok _ _ _ E). reflexivity.
Qed.

Lemma ascii_unit_for_unit_witness :
  let str := bytes [0x4D; 0x75; 0x00; 0x7F] in
  Forall (fun b => uchar b < 0x80) str
  /\ utf8ToUtf16 str = uchar <$> str
  /\ utf16ToUtf8 (U16 (uchar <$> str)) = str.
Proof.
  cbv zeta.
  assert (H : Forall (fun b => uchar b < 0x80) (bytes [0x4D; 0x75; 0x00; 0x7F]))
    by (repeat constructor).
  split; [exact H|]. apply (ascii_unit_for_unit _ H).
Defined.

(** A code point that is accepted yields no more units than it took
    octets. *)
Lemma read_utf8_code_point_units (from from' : list byte) (cp : Z) :
  read_utf8_code_point from max_code_point = (cp, from') ->
  cp <= max_code_point ->
  (length (write_utf16_code_point cp) + length from' <= length from)%nat.
Proof.
  intros H Hle. unfold read_utf8_code_point in H.
  change incomplete_mb_character with 4294967294 in H.
  change invalid_mb_sequence with 4294967295 in H.
  unfold max_code_point, write_utf16_code_point, max_single_utf16_unit in *.
  repeat match type of H with
  | context [match ?l with [] => _ | _ :: _ => _ end] => destruct l
  | context [if ?b then _ else _] => destruct b eqn:?
  end;
  injection H as <- <-;
  match goal with |- context [if ?b then _ else _] => destruct b eqn:? end;
  cbn [length]; lia.
Qed.

Lemma utf16_in_loop_length (fuel : nat) : forall str : list byte,
  (length (snd (utf16_in_loop fuel str max_code_point)) <= length str)%nat.
Proof.
  induction fuel as [|fuel IH]; intros str.
  - destruct str; cbn; lia.
  - destruct str as [|b str]; [cbn; lia|].
    rewrite utf16_in_loop_nonempty.
    destruct (read_utf8_code_point (b :: str) max_code_point) as [cp from'] eqn:E.
    destruct (cp =? incomplete_mb_character); [cbn; lia|].
    rewrite Z.gtb_ltb. destruct (Z.ltb_spec max_code_point cp); [cbn; lia|].
    pose proof (read_utf8_code_point_units _ _ _ E ltac:(lia)) as Hu.
    specialize (IH from').
    destruct (utf16_in_loop fuel from' max_code_point) as [r to].
    cbn [snd] in *. rewrite length_app. lia.
Qed.

Lemma utf16_in_loop_units (fuel : nat) : forall str : list byte,
  Forall (fun u => 0 <= u < 2 ^ 16) (snd (utf16_in_loop fuel str max_code_point)).
Proof.
  induction fuel as [|fuel IH]; intros str.
  - destruct str; constructor.
  - destruct str as [|b str]; [constructor|].
    rewrite utf16_in_loop_nonempty.
    destruct (read_utf8_code_point (b :: str) max_code_point) as [cp from'].
    destruct (cp =? incomplete_mb_character); [constructor|].
    destruct (cp >? max_code_point); [constructor|].
    specialize (IH from').
    destruct (utf16_in_loop fuel from' max_code_point) as [r to].
    cbn [snd] in *. apply Forall_app. split; [|exact IH].
    unfold write_utf16_code_point, char16_t.
    destruct (cp <=? max_single_utf16_unit); repeat constructor;
      apply Z.mod_pos_bound; reflexivity.
Qed.

Lemma utf8ToUtf16_from_loop (str : list byte) :
  utf8ToUtf16 str = []
  \/ utf8ToUtf16 str = snd (utf16_in_loop (length str) str max_code_point).
Proof.
  unfold utf8ToUtf16, from_bytes, utf16_in. destruct str as [|b str]; [left; reflexivity|].
  destruct (utf16_in_loop (length (b :: str)) (b :: str) max_code_point) as [r to].
  destruct (result_eqb r error); [left | right]; reflexivity.
Qed.

(** X16.  Whatever the input, valid or not, [utf8ToUtf16] returns at most
    one unit per input octet, and each unit it returns fits 16 bits, also
    where [wchar_t] is wider. *)
Theorem utf8ToUtf16_size (str : list byte) :
  (length (utf8ToUtf16 str) <= length str)%nat
  /\ Forall (fun u => 0 <= u < 2 ^ 16) (utf8ToUtf16 str).
Proof.
  destruct (utf8ToUtf16_from_loop str) as [-> | ->].
  - split; [cbn; lia | constructor].
  - split; [apply utf16_in_loop_length | apply utf16_in_loop_units].
Qed.

Lemma utf16_out_length (bits : Z) : forall from : list Z,
  (length (snd (utf16_out bits from max_code_point)) <= 4 * length from)%nat
  /\ (bits = 16 ->
      (length (snd (utf16_out bits from max_code_point)) <= 3 * length from)%nat).
Proof.
  induction from as [| x | x y l IH1 IH2] using list_ind2.
  - cbn. lia.
  - rewrite utf16_out_cons. cbv zeta.
    destruct (is_high_surrogate (elem bits x)); [cbn; lia|].
    destruct (is_low_surrogate (elem bits x)); [cbn; lia|].
    destruct (elem bits x >? max_code_point); [cbn; lia|].
    destruct (write_utf8_code_point (elem bits x)) as [bs|] eqn:E; [|cbn; lia].
    apply write_utf8_code_point_length in E as [E4 E3].
    cbn [utf16_out snd length]. rewrite app_nil_r. split; [lia|].
    intros ->. unfold elem in E3. change (2 ^ 16) with 65536 in E3.
    pose proof (Z.mod_pos_bound x 65536 ltac:(lia)). lia.
  - rewrite utf16_out_cons. cbv zeta.
    destruct (is_high_surrogate (elem bits x)).
    + destruct (is_low_surrogate (elem bits y)); [|cbn; lia].
      destruct (_ >? max_code_point); [cbn; lia|].
      destruct (write_utf8_code_point _) as [bs|] eqn:E; [|cbn; lia].
      apply write_utf8_code_point_length in E as [E4 _].
      destruct IH1 as [I4 I3].
      destruct (utf16_out bits l max_code_point) as [r to].
      cbn [snd length] in *. rewrite length_app. split; [lia|].
      intros Hb. specialize (I3 Hb). lia.
    + destruct (is_low_surrogate (elem bits x)); [cbn; lia|].
      destruct (elem bits x >? max_code_point); [cbn; lia|].
      destruct (write_utf8_code_point (elem bits x)) as [bs|] eqn:E; [|cbn; lia].
      apply write_utf8_code_point_length in E as [E4 E3].
      destruct IH2 as [I4 I3].
      destruct (utf16_out bits (y :: l) max_code_point) as [r to].
      cbn [snd length] in *. rewrite length_app. split; [lia|].
      intros Hb. specialize (I3 Hb). subst bits.
      unfold elem in E3. change (2 ^ 16) with 65536 in E3.
      pose proof (Z.mod_pos_bound x 65536 ltac:(lia)). lia.
Qed.

Lemma to_bytes_from_loop (bits : Z) (wstr : list Z) :
  to_bytes bits wstr = inr range_error
  \/ to_bytes bits wstr = inl (snd (utf16_out bits wstr max_code_point)).
Proof.
  unfold to_bytes. destruct wstr as [|u wstr]; [right; reflexivity|].
  destruct (utf16_out bits (u :: wstr) max_code_point) as [r to].
  destruct (result_eqb r error); [left | right]; reflexivity.
Qed.

(** X17.  Whatever the input, [utf16ToUtf8] returns at most three octets
    per element of a [std::u16string] and at most four per element of a
    [std::u32string]. *)
Theorem utf16ToUtf8_size (str16 : u16string) (str32 : u32string) :
  (length (utf16ToUtf8 str16) <= 3 * length (units16 str16))%nat
  /\ (length (utf16ToUtf8 str32) <= 4 * length (units32 str32))%nat.
Proof.
  destruct str16 as [l16], str32 as [l32].
  unfold utf16ToUtf8, utf16ToUtf8_u16string, utf16ToUtf8_u32string.
  cbn [units16 units32]. split.
  - destruct (to_bytes_from_loop 16 l16) as [-> | ->]; [cbn; lia|].
    apply (utf16_out_length 16 l16). reflexivity.
  - destruct (to_bytes_from_loop 32 l32) as [-> | ->]; [cbn; lia|].
    apply (utf16_out_length 32 l32).
Qed.

Lemma utf16_out_valid_utf8 (bits : Z) : forall from : list Z,
  0 <= bits ->
  exists cps, Forall is_scalar cps
    /\ snd (utf16_out bits from max_code_point) = utf8_encode cps.
Proof.
  intros from Hbits.
  assert (Hpos : forall u, 0 <= elem bits u).
  { intros u. unfold elem. apply Z.mod_pos_bound. apply Z.pow_pos_nonneg; lia. }
  induction from as [| x | x y l IH1 IH2] using list_ind2.
  - exists []. split; [constructor | reflexivity].
  - rewrite utf16_out_cons. cbv zeta.
    destruct (is_high_surrogate (elem bits x)) eqn:Hh;
      [exists []; split; [constructor | reflexivity]|].
    destruct (is_low_surrogate (elem bits x)) eqn:Hl;
      [exists []; split; [constructor | reflexivity]|].
    rewrite Z.gtb_ltb.
    destruct (Z.ltb_spec max_code_point (elem bits x)) as [|Hle];
      [exists []; split; [constructor | reflexivity]|].
    unfold max_code_point in Hle. specialize (Hpos x).
    rewrite write_utf8_code_point_encode by lia.
    exists [elem bits x]. split; [|cbn; rewrite !app_nil_r; reflexivity].
    constructor; [|constructor]. split; [lia|].
    unfold is_high_surrogate, is_low_surrogate in Hh, Hl.
    apply andb_false_iff in Hh, Hl. rewrite !Z.leb_gt in Hh, Hl. lia.
  - rewrite utf16_out_cons. cbv zeta.
    destruct (is_high_surrogate (elem bits x)) eqn:Hh.
    + destruct (is_low_surrogate (elem bits y)) eqn:Hl;
        [|exists []; split; [constructor | reflexivity]].
      pose proof (surrogate_pair_range _ _ Hh Hl) as Hr.
      rewrite Z.gtb_ltb.
      destruct (Z.ltb_spec max_code_point
                  (surrogate_pair_to_code_point (elem bits x) (elem bits y)));
        [exists []; split; [constructor | reflexivity]|].
      rewrite write_utf8_code_point_encode by lia.
      destruct IH1 as (cps & Hsc & E).
      destruct (utf16_out bits l max_code_point) as [r to]. cbn [snd] in *.
      subst to.
      exists (surrogate_pair_to_code_point (elem bits x) (elem bits y) :: cps).
      split; [|reflexivity]. constructor; [|exact Hsc]. split; lia.
    + destruct (is_low_surrogate (elem bits x)) eqn:Hl;
        [exists []; split; [constructor | reflexivity]|].
      rewrite Z.gtb_ltb.
      destruct (Z.ltb_spec max_code_point (elem bits x)) as [|Hle];
        [exists []; split; [constructor | reflexivity]|].
      unfold max_code_point in Hle. specialize (Hpos x).
      rewrite write_utf8_code_point_encode by lia.
      destruct IH2 as (cps & Hsc & E).
      destruct (utf16_out bits (y :: l) max_code_point) as [r to].
      cbn [snd] in *. subst to.
      exists (elem bits x :: cps). split; [|reflexivity].
      constructor; [|exact Hsc]. split; [lia|].
      unfold is_high_surrogate, is_low_surrogate in Hh, Hl.
      apply andb_false_iff in Hh, Hl. rewrite !Z.leb_gt in Hh, Hl. lia.
Qed.

(** X18.  Whatever it is given, well-formed or not, neither overload of
    [utf16ToUtf8] ever returns ill-formed UTF-8. *)
Theorem utf16ToUtf8_always_valid (l : list Z) :
  valid_utf8 (utf16ToUtf8 (U16 l)) /\ valid_utf8 (utf16ToUtf8 (U32 l)).
Proof.
  assert (Hnil : valid_utf8 []) by (exists []; split; [constructor | reflexivity]).
  unfold utf16ToUtf8, utf16ToUtf8_u16string, utf16ToUtf8_u32string.
  cbn [units16 units32]. split.
  - destruct (to_bytes_from_loop 16 l) as [-> | ->]; [exact Hnil|].
    destruct (utf16_out_valid_utf8 16 l ltac:(lia)) as (cps & Hsc & E).
    exists cps. split; assumption.
  - destruct (to_bytes_from_loop 32 l) as [-> | ->]; [exact Hnil|].
    destruct (utf16_out_valid_utf8 32 l ltac:(lia)) as (cps & Hsc & E).
    exists cps. split; assumption.
Qed.

(** ** [readFile] *)

(** X19.  [readFile] returns the whole content of a file that can be
    opened, whatever its length (empty, shorter than the 256-octet buffer,
    a multiple of it or not) and whatever octets it holds, and the empty
    string for a path that cannot be opened; an empty file and a missing
    one give the same result. *)
Theorem readFile_content (fs : gmap string (list byte)) (path : string) :
  readFile fs path = match fs !! path with Some data => data | None => [] end.
Proof.
  unfold readFile, Ifstream.open. destruct (fs !! path) as [data|].
  - cbn [Ifstream.unread]. apply (readFile_loop_good _ data [] 0). lia.
  - reflexivity.
Qed.

(** ** [sinCos] *)

(** X20.  Compiled without [OS_WINDOWS], [sinCos] overwrites the exception
    flags of the caller: whatever was pending before the call is lost, and
    afterwards exactly the exceptions raised by the evaluation are set. *)
Theorem sinCos_discards_pending_flags (float : Type) (sin cos : float -> float)
    (sincosf : float -> float * float * list Fenv.fexcept)
    (value : float) (s : Fenv.env) :
  Fenv.flags (snd (sinCos float sin cos sincosf false value s))
  = snd (sincosf value).
Proof.
  unfold sinCos. destruct (sincosf value) as [[outSin outCos] raised].
  cbn [snd]. unfold Fenv.feraise. cbn [Fenv.flags].
  rewrite feclearexcept_all. reflexivity.
Qed.

(** ** Byte order *)

Lemma swap_octets_range (v : Z) : 0 <= v < 2 ^ 16 -> 0 <= swap_octets v < 2 ^ 16.
Proof.
  unfold swap_octets. change (2 ^ 16) with 65536. intros Hv. zarith.
Qed.

Lemma swap_octets_involutive (v : Z) :
  0 <= v < 2 ^ 16 -> swap_octets (swap_octets v) = v.
Proof.
  unfold swap_octets. change (2 ^ 16) with 65536. intros Hv. zarith.
Qed.

(** X21.  [networkToHost] maps 16-bit values to 16-bit values and is its
    own inverse, on every platform: applying it twice gives the value
    back, so the same function also converts from host to network order. *)
Theorem networkToHost_involutive (e : endianness) (v : Z) :
  0 <= v < 2 ^ 16 ->
  0 <= networkToHost e v < 2 ^ 16
  /\ networkToHost e (networkToHost e v) = v.
Proof.
  intros Hv. unfold networkToHost. rewrite isBigEndian_cases.
  destruct e; [split; [exact Hv | reflexivity] | |];
    rewrite (bswap16_swap_octets v Hv);
    pose proof (swap_octets_range v Hv) as Hr;
    rewrite (bswap16_swap_octets _ Hr);
    (split; [exact Hr | apply swap_octets_involutive, Hv]).
Qed.

Lemma networkToHost_involutive_witness :
  0 <= 0xBEEF < 2 ^ 16
  /\ 0 <= networkToHost LittleEndian 0xBEEF < 2 ^ 16
  /\ networkToHost LittleEndian (networkToHost LittleEndian 0xBEEF) = 0xBEEF.
Proof.
  split; [lia|]. apply (networkToHost_involutive LittleEndian 0xBEEF). lia.
Defined.

(** X22.  [networkToHost] recovers the number sent: applied to the
    [uint16_t] that the host reads from two octets received in network
    order, most significant first, it returns [256 * b0 + b1] on every
    platform. *)
Theorem networkToHost_decodes_wire (e : endianness) (b0 b1 : Z) :
  0 <= b0 < 256 -> 0 <= b1 < 256 ->
  networkToHost e (load16 e b0 b1) = 256 * b0 + b1.
Proof.
  intros H0 H1. unfold networkToHost. rewrite isBigEndian_cases.
  destruct e; cbn [load16]; [reflexivity | |];
    rewrite bswap16_swap_octets by (change (2 ^ 16) with 65536; lia);
    unfold swap_octets; zarith.
Qed.

Lemma networkToHost_decodes_wire_witness :
  0 <= 0x12 < 256 /\ 0 <= 0x34 < 256
  /\ networkToHost LittleEndian (load16 LittleEndian 0x12 0x34) = 0x1234
  /\ networkToHost BigEndian (load16 BigEndian 0x12 0x34) = 0x1234.
Proof.
  split; [lia|]. split; [lia|]. split.
  - apply (networkToHost_decodes_wire LittleEndian 0x12 0x34); lia.
  - apply (networkToHost_decodes_wire BigEndian 0x12 0x34); lia.
Defined.
